(** * Session lifecycle of the Litestar SQLAlchemy plugin

    A shallow embedding of
    [advanced_alchemy/extensions/litestar/plugins/init/config/asyncio.py] and
    [advanced_alchemy/extensions/litestar/plugins/init/plugin.py], and of the
    filter providers exercised by
    [tests/unit/test_extensions/test_litestar/test_providers.py].

    Python objects are modelled as follows.
    - An [AsyncSession] object is its identity (a number).  Such objects
      define neither [__bool__] nor [__len__], so every session is truthy.
    - An ASGI message is the pair of its ["type"] and its ["status"] entry;
      the code reads ["status"] only of response-start messages.
    - The connection scope is the dictionary kept by the [*_aa_scope_state]
      helpers, a finite map from keys to sessions.
    - [await session.commit()], [rollback()] and [close()] are calls into the
      ORM: each is recorded in a trace and returns or raises as the ORM
      decides.
    - Exceptions are values of [exn]; code that can raise runs in the monad
      [M], which threads the [World] and stops at the first exception. *)

From stdpp Require Import base gmap sets list strings pretty.
From Stdlib Require Import ZArith Lia.

Local Open Scope string_scope.
Local Open Scope list_scope.

Set Warnings "-clear-no-such-hyp".

(** ** Exceptions *)

Inductive exn : Type :=
  | ValueError (msg : string)
  | KeyError (key : string)
  | ImproperConfigurationError (detail : string)
  | OrmError (code : nat).

(** [ImproperConfigurationError] is imported from [advanced_alchemy.exceptions]
    (plugin.py, line 12): it belongs to the repository's own exception
    hierarchy.  [ValueError] and [KeyError] are Python builtins, [OrmError]
    stands for whatever the ORM raises. *)
Definition repository_defined (e : exn) : bool :=
  match e with
  | ImproperConfigurationError _ => true
  | _ => false
  end.

Definition orm_raised (e : exn) : bool :=
  match e with
  | OrmError _ => true
  | _ => false
  end.

(** ** Sessions, messages and the world *)

Definition Session := nat.

Inductive event : Type :=
  | ECommit (s : Session)
  | ERollback (s : Session)
  | EClose (s : Session)
  | EMake (maker : nat) (s : Session).

Record Message := mkMessage { msg_type : string; msg_status : Z }.

(** How the ORM answers: [None] when the awaited call returns, [Some e] when
    it raises [e]. *)
Record Orm := mkOrm {
  commit_result : Session → option exn;
  rollback_result : Session → option exn;
  close_result : Session → option exn
}.

Record World := mkWorld {
  scope : gmap string Session;   (* the scope's advanced-alchemy state *)
  trace : list event;            (* ORM calls issued so far, oldest first *)
  next_session : Session;        (* identity of the next object created *)
  async_context : bool           (* the flag written by set_async_context *)
}.

Definition with_scope (sc : gmap string Session) (w : World) : World :=
  {| scope := sc; trace := trace w;
     next_session := next_session w; async_context := async_context w |}.

Definition log (e : event) (w : World) : World :=
  {| scope := scope w; trace := trace w ++ [e];
     next_session := next_session w; async_context := async_context w |}.

(** ** The monad of effectful, fallible code *)

Definition M (A : Type) : Type := World → (exn + A) * World.

Definition ret {A} (a : A) : M A := λ w, (inr a, w).
Definition raise {A} (e : exn) : M A := λ w, (inl e, w).
Definition bind {A B} (k : A → M B) (m : M A) : M B :=
  λ w, match m w with
       | (inl e, w') => (inl e, w')
       | (inr a, w') => k a w'
       end.

(** The classes behind the notations [x ← m; k] and [m ;; k]. *)
#[global] Instance M_ret : MRet M := @ret.
#[global] Instance M_bind : MBind M := @bind.

(** [try: body finally: fin].  The [finally] block always runs; when it
    raises, its exception wins, otherwise the outcome of [body] stands. *)
Definition try_finally (body fin : M unit) : M unit :=
  λ w, match body w with
       | (r, w') =>
           match fin w' with
           | (inl e, w'') => (inl e, w'')
           | (inr _, w'') => (r, w'')
           end
       end.

(** ** Scope-state helpers *)

(** The helpers of [advanced_alchemy.extensions.litestar._utils] are not among
    the sources; the handlers use them to read, store and delete the session
    kept in the scope under a key. *)

(** Modelled from the spec: [get_aa_scope_state], absent from the sources,
    gives what is stored in the scope under [key], or [None]. *)
Definition get_aa_scope_state (key : string) : M (option Session) :=
  λ w, (inr (scope w !! key), w).

(** Modelled from the spec: [set_aa_scope_state], absent from the sources,
    stores a session in the scope under [key]. *)
Definition set_aa_scope_state (key : string) (s : Session) : M unit :=
  λ w, (inr tt, with_scope (<[key := s]> (scope w)) w).

(** Modelled from the spec: [delete_aa_scope_state], absent from the sources,
    deletes the entry of [key] from the scope.  The handlers call it only
    for a key they have just read. *)
Definition delete_aa_scope_state (key : string) : M unit :=
  λ w, (inr tt, with_scope (delete key (scope w)) w).

(** ** ORM calls *)

Definition orm_call (e : event) (r : option exn) : M unit :=
  λ w, match r with
       | None => (inr tt, log e w)
       | Some x => (inl x, log e w)
       end.

(** The ORM calls that running [m] in [w] adds to the trace. *)
Definition performed {A} (m : M A) (w : World) : list event :=
  drop (length (trace w)) (trace (m w).2).

(** ** Outcomes of calls outside [M]

    What a call does: it returns, it raises, or the model has run out of
    fuel for the recursion of [_ensure_unique]. *)
Inductive outcome (A : Type) : Type :=
  | Returned (a : A)
  | Raised (e : exn)
  | OutOfFuel.
Arguments Returned {A} a.
Arguments Raised {A} e.
Arguments OutOfFuel {A}.

Definition and_then {A B} (o : outcome A) (k : A → outcome B) : outcome B :=
  match o with
  | Returned a => k a
  | Raised e => Raised e
  | OutOfFuel => OutOfFuel
  end.

Section Plugin.

Variable orm : Orm.

(** [SESSION_TERMINUS_ASGI_EVENTS] is declared in [config/common.py], which
    is not among the sources: the handlers are verified for every value of
    this set. *)
Variable SESSION_TERMINUS_ASGI_EVENTS : gset string.

(** [litestar.constants.HTTP_RESPONSE_START] *)
Definition HTTP_RESPONSE_START : string := "http.response.start".

Definition session_commit (s : Session) : M unit :=
  orm_call (ECommit s) (commit_result orm s).
Definition session_rollback (s : Session) : M unit :=
  orm_call (ERollback s) (rollback_result orm s).
Definition session_close (s : Session) : M unit :=
  orm_call (EClose s) (close_result orm s).

Definition is_terminus (message : Message) : bool :=
  bool_decide (msg_type message ∈ SESSION_TERMINUS_ASGI_EVENTS).

(** The block shared by both handlers:
    [if session and message["type"] in SESSION_TERMINUS_ASGI_EVENTS] *)
Definition close_and_delete (session_scope_key : string)
    (session : option Session) (message : Message) : M unit :=
  match session with
  | Some s =>
      if is_terminus message
      then session_close s ;; delete_aa_scope_state session_scope_key
      else ret tt
  | None => ret tt
  end.

(** [default_handler_maker(session_scope_key)]: the handler it returns. *)
Definition default_handler_maker (session_scope_key : string)
    (message : Message) : M unit :=
  session ← get_aa_scope_state session_scope_key;
  close_and_delete session_scope_key session message.

(** [range(200, 400 if commit_on_redirect else 300)] *)
Definition commit_range (commit_on_redirect : bool) (status : Z) : bool :=
  ((200 <=? status) && (status <? (if commit_on_redirect then 400 else 300)))%Z.

Definition should_commit (commit_on_redirect : bool)
    (extra_commit_statuses extra_rollback_statuses : gset Z) (status : Z) : bool :=
  (commit_range commit_on_redirect status
     || bool_decide (status ∈ extra_commit_statuses))
  && negb (bool_decide (status ∈ extra_rollback_statuses)).

Definition autocommit_handler (commit_on_redirect : bool)
    (extra_commit_statuses extra_rollback_statuses : gset Z)
    (session_scope_key : string) (message : Message) : M unit :=
  session ← get_aa_scope_state session_scope_key;
  try_finally
    (match session with
     | Some s =>
         if String.eqb (msg_type message) HTTP_RESPONSE_START
         then
           if should_commit commit_on_redirect extra_commit_statuses
                extra_rollback_statuses (msg_status message)
           then session_commit s
           else session_rollback s
         else ret tt
     | None => ret tt
     end)
    (close_and_delete session_scope_key session message).

(** [autocommit_handler_maker]: [inl] is the exception raised by the maker,
    [inr] the handler returned. *)
Definition autocommit_handler_maker (commit_on_redirect : bool)
    (extra_commit_statuses extra_rollback_statuses : option (gset Z))
    (session_scope_key : string) : exn + (Message → M unit) :=
  let extra_commit_statuses := default ∅ extra_commit_statuses in
  let extra_rollback_statuses := default ∅ extra_rollback_statuses in
  if bool_decide (0 < size (extra_commit_statuses ∩ extra_rollback_statuses))
  then inl (ValueError
    "Extra rollback statuses and commit statuses must not share any status codes")
  else inr (autocommit_handler commit_on_redirect extra_commit_statuses
              extra_rollback_statuses session_scope_key).

(** ** [SQLAlchemyAsyncConfig] *)

(** [before_send_handler]: [None], a string such as ["autocommit"], or a
    handler. *)
Inductive BeforeSend : Type :=
  | BSNone
  | BSStr (name : string)
  | BSHandler (handler : Message → M unit).

Record SQLAlchemyAsyncConfig := mkConfig {
  before_send_handler : BeforeSend;
  engine_dependency_key : string;
  session_dependency_key : string;
  engine_app_state_key : string;
  session_maker_app_state_key : string;
  session_scope_key : string;
  set_default_exception_handler : bool
}.

(** The class-level registries, shared by all instances.  They are declared
    on the parent class as sets of strings. *)
Record Registries := mkRegistries {
  _SESSION_SCOPE_KEY_REGISTRY : gset string;
  _ENGINE_APP_STATE_KEY_REGISTRY : gset string;
  _SESSIONMAKER_APP_STATE_KEY_REGISTRY : gset string
}.

(** [f"{key}_{_iter}"] *)
Definition suffixed (key : string) (_iter : nat) : string :=
  key +:+ "_" +:+ pretty _iter.

(** [_ensure_unique(registry_name, key, new_key, _iter)], the registry being
    the set found under [registry_name].  The recursion has no structural
    argument: [fuel] bounds its depth. *)
Fixpoint _ensure_unique_fuel (fuel : nat) (registry : gset string)
    (key : string) (new_key : option string) (_iter : nat) : outcome string :=
  let new_key := default key new_key in
  if bool_decide (new_key ∈ registry)
  then
    match fuel with
    | O => OutOfFuel
    | S fuel =>
        let _iter := S _iter in
        _ensure_unique_fuel fuel registry key (Some (suffixed key _iter)) _iter
    end
  else Returned new_key.

(** The call [self._ensure_unique(registry_name, key)] of [__post_init__].
    A registry of [n] keys stops the recursion after at most [n] calls
    (lemma [_ensure_unique_returns]); the interpreter's own limit on the
    depth of recursion is not modelled. *)
Definition _ensure_unique (registry : gset string) (key : string) : outcome string :=
  _ensure_unique_fuel (size registry) registry key None 0.

(** [self.before_send_handler == name] for a string [name] *)
Definition is_literal (h : BeforeSend) (name : string) : bool :=
  match h with
  | BSStr s => String.eqb s name
  | _ => false
  end.

Definition lift_maker {A} (r : exn + A) : outcome A :=
  match r with
  | inl e => Raised e
  | inr a => Returned a
  end.

(** [__post_init__], up to the call of the parent's hook, which is not among
    the sources and touches none of these fields. *)
Definition __post_init__ (self : SQLAlchemyAsyncConfig) (cls : Registries)
    : outcome (SQLAlchemyAsyncConfig * Registries) :=
  and_then (_ensure_unique (_SESSION_SCOPE_KEY_REGISTRY cls) (session_scope_key self))
    (λ scope_key,
  and_then (_ensure_unique (_ENGINE_APP_STATE_KEY_REGISTRY cls) (engine_app_state_key self))
    (λ engine_key,
  and_then (_ensure_unique (_SESSIONMAKER_APP_STATE_KEY_REGISTRY cls)
              (session_maker_app_state_key self))
    (λ maker_key,
  let cls :=
    {| _SESSION_SCOPE_KEY_REGISTRY := {[scope_key]} ∪ _SESSION_SCOPE_KEY_REGISTRY cls;
       _ENGINE_APP_STATE_KEY_REGISTRY := {[engine_key]} ∪ _ENGINE_APP_STATE_KEY_REGISTRY cls;
       _SESSIONMAKER_APP_STATE_KEY_REGISTRY :=
         {[maker_key]} ∪ _SESSIONMAKER_APP_STATE_KEY_REGISTRY cls |} in
  let h1 :=
    match before_send_handler self with
    | BSNone => BSHandler (default_handler_maker scope_key)
    | h => h
    end in
  and_then
    (if is_literal h1 "autocommit"
     then and_then (lift_maker (autocommit_handler_maker false None None scope_key))
            (λ h, Returned (BSHandler h))
     else Returned h1)
    (λ h2,
  and_then
    (if is_literal h2 "autocommit_include_redirects"
     then and_then (lift_maker (autocommit_handler_maker true None None scope_key))
            (λ h, Returned (BSHandler h))
     else Returned h2)
    (λ h3,
  Returned
    ({| before_send_handler := h3;
        engine_dependency_key := engine_dependency_key self;
        session_dependency_key := session_dependency_key self;
        engine_app_state_key := engine_key;
        session_maker_app_state_key := maker_key;
        session_scope_key := scope_key;
        set_default_exception_handler := set_default_exception_handler self |},
     cls)))))).

(** [state[key]] on the application state: [KeyError] when missing.  The
    state maps a key to the identity of the session maker stored there. *)
Definition state_getitem (state : gmap string nat) (key : string) : M nat :=
  match state !! key with
  | Some v => ret v
  | None => raise (KeyError key)
  end.

(** [session_maker()]: a new session object. *)
Definition call_session_maker (maker : nat) : M Session :=
  λ w, (inr (next_session w),
        {| scope := scope w;
           trace := trace w ++ [EMake maker (next_session w)];
           next_session := S (next_session w);
           async_context := async_context w |}).

Definition set_async_context (b : bool) : M unit :=
  λ w, (inr tt,
        {| scope := scope w; trace := trace w;
           next_session := next_session w; async_context := b |}).

Definition provide_session (self : SQLAlchemyAsyncConfig)
    (state : gmap string nat) : M Session :=
  session ← get_aa_scope_state (session_scope_key self);
  session ← match session with
            | None =>
                session_maker ← state_getitem state (session_maker_app_state_key self);
                session ← call_session_maker session_maker;
                set_aa_scope_state (session_scope_key self) session ;;
                ret session
            | Some session => ret session
            end;
  set_async_context true ;;
  ret session.

(** [n] calls in a row, with the sessions they return. *)
Fixpoint provide_session_times (n : nat) (self : SQLAlchemyAsyncConfig)
    (state : gmap string nat) : M (list Session) :=
  match n with
  | O => ret []
  | S n =>
      s ← provide_session self state;
      rest ← provide_session_times n self state;
      ret (s :: rest)
  end.

End Plugin.

(** ** [SQLAlchemyInitPlugin] *)

(** [self._config]: one config or a sequence of configs. *)
Inductive PluginConfig : Type :=
  | Single (config : SQLAlchemyAsyncConfig)
  | Sequence (configs : list SQLAlchemyAsyncConfig).

(** [self._config if isinstance(self._config, Sequence) else [self._config]] *)
Definition plugin_configs (self : PluginConfig) : list SQLAlchemyAsyncConfig :=
  match self with
  | Single config => [config]
  | Sequence configs => configs
  end.

Definition improper_configuration_detail : string :=
  "When using multiple configurations, please ensure the `session_dependency_key` and `engine_dependency_key` settings are unique across all configs.  Additionally, iF you are using a custom `before_send` handler, ensure `session_scope_key` is unique.".

Definition _validate_config (self : PluginConfig) : exn + unit :=
  let configs := plugin_configs self in
  let scope_keys : gset string := list_to_set (session_scope_key <$> configs) in
  let engine_keys : gset string := list_to_set (engine_dependency_key <$> configs) in
  let session_keys : gset string := list_to_set (session_dependency_key <$> configs) in
  if bool_decide (1 < length configs)
     && existsb (λ i : gset string, bool_decide (size i ≠ length configs))
          [scope_keys; engine_keys; session_keys]
  then inl (ImproperConfigurationError improper_configuration_detail)
  else inr tt.

(** Keys of the application's exception-handler registry: a status code or an
    exception class.  Of a class only its relation to [RepositoryError]
    matters here. *)
Inductive ExceptionClass : Type :=
  | RepositoryError
  | RepositoryErrorSubclass (name : string)
  | OtherException (name : string).

Inductive HandlerKey : Type :=
  | StatusKey (code : Z)
  | ClassKey (cls : ExceptionClass).

Inductive ExceptionHandler : Type :=
  | exception_to_http_response
  | UserHandler (id : nat).

(** [isinstance(exc, int) or issubclass(exc, RepositoryError)] *)
Definition covers_repository_errors (exc : HandlerKey) : bool :=
  match exc with
  | StatusKey _ => true
  | ClassKey RepositoryError => true
  | ClassKey (RepositoryErrorSubclass _) => true
  | ClassKey (OtherException _) => false
  end.

Inductive Dependency : Type :=
  | ProvideEngine (config : SQLAlchemyAsyncConfig)
  | ProvideSession (config : SQLAlchemyAsyncConfig).

(** The fields of [AppConfig] that [on_app_init] writes, type encoders and
    the signature namespace apart. *)
Record AppConfig := mkAppConfig {
  lifespan : list SQLAlchemyAsyncConfig;
  dependencies : gmap string Dependency;
  before_send : list BeforeSend;
  exception_handlers : list (HandlerKey * ExceptionHandler)
}.

(** The body of [for config in self.config], on the pair of the flag
    [configure_exception_handler] and the application config. *)
Definition on_app_init_step (acc : bool * AppConfig) (config : SQLAlchemyAsyncConfig)
    : bool * AppConfig :=
  let '(configure_exception_handler, app_config) := acc in
  (if set_default_exception_handler config then true else configure_exception_handler,
   {| lifespan := lifespan app_config ++ [config];
      dependencies :=
        <[session_dependency_key config := ProvideSession config]>
          (<[engine_dependency_key config := ProvideEngine config]>
             (dependencies app_config));
      before_send := before_send app_config ++ [before_send_handler config];
      exception_handlers := exception_handlers app_config |}).

(** [on_app_init].  The handler for [RepositoryError] is added only when no
    key of the registry covers it, so the update adds a new key. *)
Definition on_app_init (self : PluginConfig) (app_config : AppConfig) : exn + AppConfig :=
  match _validate_config self with
  | inl e => inl e
  | inr _ =>
      let '(configure_exception_handler, app_config) :=
        fold_left on_app_init_step (plugin_configs self) (false, app_config) in
      if configure_exception_handler
         && negb (existsb (λ kh, covers_repository_errors kh.1)
                    (exception_handlers app_config))
      then inr {| lifespan := lifespan app_config;
                  dependencies := dependencies app_config;
                  before_send := before_send app_config;
                  exception_handlers :=
                    exception_handlers app_config
                      ++ [(ClassKey RepositoryError, exception_to_http_response)] |}
      else inr app_config
  end.

(** ** Filter providers *)

(** Modelled from the spec: [FilterConfig] is declared in
    [advanced_alchemy.extensions.litestar.providers], which is not among the
    sources.  The fields are the keys the tests configure; a key left out is
    [None], [false] or the empty list. *)
Record FilterConfig := mkFilterConfig {
  id_filter : option string;
  id_field : option string;
  created_at : bool;
  updated_at : bool;
  search : option string;
  search_ignore_case : bool;
  pagination_type : option string;
  pagination_size : option Z;
  sort_field : option string;
  sort_order : option string;
  not_in_fields : list string;
  in_fields : list string
}.

(** Modelled from the spec: the filter objects of [advanced_alchemy.filters],
    with the attributes the tests read. *)
Inductive Filter : Type :=
  | CollectionFilter (field_name : string) (values : list string)
  | NotInCollectionFilter (field_name : string) (values : list string)
  | BeforeAfter (field_name : string) (before after : option Z)
  | SearchFilter (field_name : string) (value : option string) (ignore_case : bool)
  | LimitOffset (limit offset : Z)
  | OrderBy (field_name : option string) (sort_order : string).

(** Modelled from the spec: a passed filter is valid unless it is a
    [SearchFilter] whose value is [None] or an [OrderBy] whose field name is
    [None]. *)
Definition valid_filter (f : Filter) : bool :=
  match f with
  | SearchFilter _ None _ => false
  | OrderBy None _ => false
  | _ => true
  end.

(** Modelled from the spec: one step of the aggregate function's loop over the
    keyword arguments; [None] and invalid filters are skipped, every other
    filter is appended. *)
Definition aggregate_step (filters : list Filter) (kwarg : string * option Filter)
    : list Filter :=
  match kwarg.2 with
  | None => filters
  | Some f => if valid_filter f then filters ++ [f] else filters
  end.

(** A key of the configuration that is present (and truthy). *)
Definition configured {A} (o : option A) : bool :=
  match o with
  | Some _ => true
  | None => false
  end.

(** Modelled from the spec: the parameters of the aggregate function, one per
    configured filter. *)
Definition aggregate_parameters (config : FilterConfig) : list string :=
  (if configured (id_filter config) then ["id_filter"] else [])
  ++ (if created_at config then ["created_filter"] else [])
  ++ (if updated_at config then ["updated_filter"] else [])
  ++ (if configured (search config) then ["search_filter"] else [])
  ++ (if bool_decide (pagination_type config = Some "limit_offset")
      then ["limit_offset_filter"] else [])
  ++ (if configured (sort_field config) then ["order_by_filter"] else [])
  ++ ((λ field, field +:+ "_not_in_filter") <$> not_in_fields config)
  ++ ((λ field, field +:+ "_in_filter") <$> in_fields config).

Record AggregateFunction := mkAggregateFunction {
  parameters : list string;
  call : list (string * option Filter) → list Filter
}.

(** Modelled from the spec: [_create_filter_aggregate_function], absent from
    the sources, builds a function with one keyword parameter per configured
    filter that returns the valid filters among its arguments. *)
Definition _create_filter_aggregate_function (config : FilterConfig) : AggregateFunction :=
  {| parameters := aggregate_parameters config;
     call := λ kwargs, fold_left aggregate_step kwargs [] |}.

Section Providers.

Context {Deps Defaults : Type}.

(** The key under which a filter configuration is cached. *)
Variable cache_key : FilterConfig → Z.

(** [_create_statement_filters(config, dep_defaults)]; the tests replace it by
    a mock. *)
Variable _create_statement_filters : FilterConfig → Defaults → Deps.

Inductive cache_event : Type :=
  | Built (config : FilterConfig)
  | Stored (key : Z).

(** The singleton [dep_cache] and the calls made on behalf of it. *)
Record DependencyCache := mkDependencyCache {
  dependencies_of : gmap Z Deps;
  cache_log : list cache_event
}.

(** Modelled from the spec: [DependencyCache.get_dependencies], absent from
    the sources, gives the entry stored under a key, or [None]. *)
Definition get_dependencies (key : Z) (dep_cache : DependencyCache) : option Deps :=
  dependencies_of dep_cache !! key.

(** Modelled from the spec: [DependencyCache.add_dependencies], absent from
    the sources, stores an entry under a key. *)
Definition add_dependencies (key : Z) (deps : Deps) (dep_cache : DependencyCache)
    : DependencyCache :=
  {| dependencies_of := <[key := deps]> (dependencies_of dep_cache);
     cache_log := cache_log dep_cache ++ [Stored key] |}.

(** Modelled from the spec: the call of [_create_statement_filters], recorded
    in the log. *)
Definition build_dependencies (config : FilterConfig) (dep_defaults : Defaults)
    (dep_cache : DependencyCache) : Deps * DependencyCache :=
  (_create_statement_filters config dep_defaults,
   {| dependencies_of := dependencies_of dep_cache;
      cache_log := cache_log dep_cache ++ [Built config] |}).

(** Modelled from the spec: [create_filter_dependencies], absent from the
    sources, is a cache keyed by the filter configuration: a stored entry is
    returned as it is; otherwise the map is built, stored under the key of
    the configuration, and returned. *)
Definition create_filter_dependencies (config : FilterConfig) (dep_defaults : Defaults)
    (dep_cache : DependencyCache) : Deps * DependencyCache :=
  match get_dependencies (cache_key config) dep_cache with
  | Some deps => (deps, dep_cache)
  | None =>
      let '(deps, dep_cache) := build_dependencies config dep_defaults dep_cache in
      (deps, add_dependencies (cache_key config) deps dep_cache)
  end.

End Providers.

(** * Vocabulary of the statements *)

(** The events of the cleanup block and the scope it leaves. *)
Definition cleanup_events (T : gset string) (session : option Session) (message : Message) : list event :=
  match session with
  | Some s => if is_terminus T message then [EClose s] else []
  | None => []
  end.

Definition cleanup_scope (orm : Orm) (T : gset string) (key : string) (message : Message) (sc : gmap string Session)
    : gmap string Session :=
  match sc !! key with
  | Some s =>
      if is_terminus T message
      then match close_result orm s with
           | None => delete key sc
           | Some _ => sc
           end
      else sc
  | None => sc
  end.

(** The transaction event of the autocommit handler, if any. *)
Definition decision_events (cor : bool) (ecs ers : gset Z) (session : option Session)
    (message : Message) : list event :=
  match session with
  | Some s =>
      if String.eqb (msg_type message) HTTP_RESPONSE_START
      then if should_commit cor ecs ers (msg_status message)
           then [ECommit s] else [ERollback s]
      else []
  | None => []
  end.

(** What the cleanup block and the transaction step return or raise. *)
Definition cleanup_result (orm : Orm) (T : gset string) (session : option Session)
    (message : Message) : exn + unit :=
  match session with
  | Some s =>
      if is_terminus T message
      then match close_result orm s with
           | Some e => inl e
           | None => inr tt
           end
      else inr tt
  | None => inr tt
  end.

Definition decision_result (orm : Orm) (cor : bool) (ecs ers : gset Z)
    (session : option Session) (message : Message) : exn + unit :=
  match session with
  | Some s =>
      if String.eqb (msg_type message) HTTP_RESPONSE_START
      then match (if should_commit cor ecs ers (msg_status message)
                  then commit_result orm s else rollback_result orm s) with
           | Some e => inl e
           | None => inr tt
           end
      else inr tt
  | None => inr tt
  end.

(** The world after a handler has added [events] and run the cleanup. *)
Definition after_handler (orm : Orm) (T : gset string) (key : string)
    (message : Message) (events : list event) (w : World) : World :=
  {| scope := cleanup_scope orm T key message (scope w);
     trace := trace w ++ events;
     next_session := next_session w;
     async_context := async_context w |}.

(** The names [_ensure_unique] tries, in order: the requested key, then the
    key with the suffixes [_1], [_2], ... *)
Definition candidate (key : string) (n : nat) : string :=
  match n with
  | O => key
  | S _ => suffixed key n
  end.

(** The [new_key] argument that goes with [_iter = n]. *)
Definition new_key_at (key : string) (n : nat) : option string :=
  match n with
  | O => None
  | S _ => Some (suffixed key n)
  end.

(** [final] is what the requested [key] becomes against [registry]: the key
    itself when it is free, otherwise the key with the least positive suffix
    that is free. *)
Definition renamed (registry : gset string) (key final : string) : Prop :=
  ((key ∉ registry) ∧ final = key)
  ∨ (key ∈ registry
     ∧ ∃ n, 0 < n ∧ final = suffixed key n ∧ (final ∉ registry)
            ∧ ∀ j, 0 < j < n → suffixed key j ∈ registry).

(** The instances made from a list of requested configs, one after the other,
    against the shared registries. *)
Fixpoint create_instances (orm : Orm) (T : gset string)
    (requested : list SQLAlchemyAsyncConfig) (cls : Registries)
    : outcome (list SQLAlchemyAsyncConfig * Registries) :=
  match requested with
  | [] => Returned ([], cls)
  | self :: rest =>
      and_then (__post_init__ orm T self cls) (λ made,
      and_then (create_instances orm T rest made.2) (λ others,
      Returned (made.1 :: others.1, others.2)))
  end.

(** The defaults of the dataclass fields; the scope key is the value of
    [SESSION_SCOPE_KEY]. *)
Definition default_config : SQLAlchemyAsyncConfig :=
  {| before_send_handler := BSNone;
     engine_dependency_key := "db_engine";
     session_dependency_key := "db_session";
     engine_app_state_key := "db_engine";
     session_maker_app_state_key := "session_maker_class";
     session_scope_key := "_sqlalchemy_db_session";
     set_default_exception_handler := true |}.

Definition no_registrations : Registries :=
  {| _SESSION_SCOPE_KEY_REGISTRY := ∅;
     _ENGINE_APP_STATE_KEY_REGISTRY := ∅;
     _SESSIONMAKER_APP_STATE_KEY_REGISTRY := ∅ |}.

(** Fixtures: an ORM whose calls all return, one whose [close] raises, one
    whose [commit] raises, and the terminus events of the ASGI protocols. *)
Definition orm_ok : Orm :=
  {| commit_result := λ _, None;
     rollback_result := λ _, None;
     close_result := λ _, None |}.

Definition orm_close_fails : Orm :=
  {| commit_result := λ _, None;
     rollback_result := λ _, None;
     close_result := λ _, Some (OrmError 1) |}.

Definition orm_commit_fails : Orm :=
  {| commit_result := λ _, Some (OrmError 2);
     rollback_result := λ _, None;
     close_result := λ _, None |}.

Definition terminus_events : gset string :=
  {[ "http.response.start"; "http.disconnect";
     "websocket.disconnect"; "websocket.close" ]}.

Definition world0 : World :=
  {| scope := ∅; trace := []; next_session := 0; async_context := false |}.

(** A request in flight: session [7] is stored under the key ["db"]. *)
Definition world1 : World :=
  {| scope := {[ "db" := 7 ]}; trace := []; next_session := 8; async_context := true |}.

(** * The rest of the configuration class *)

(** ** Application state *)

(** [create_app_state_items]: the dict literal, whose second entry wins when
    the two keys are the same.  [engine] and [maker] are the objects that
    [self.get_engine()] and [self.create_session_maker()] return; the state
    maps a key to the identity of the object stored under it. *)
Definition create_app_state_items (self : SQLAlchemyAsyncConfig)
    (engine maker : nat) : gmap string nat :=
  <[session_maker_app_state_key self := maker]>
    (<[engine_app_state_key self := engine]> ∅).

(** [update_app_state]: [app.state.update(...)], on the state. *)
Definition update_app_state (self : SQLAlchemyAsyncConfig) (engine maker : nat)
    (state : gmap string nat) : gmap string nat :=
  create_app_state_items self engine maker ∪ state.

(** [provide_engine]: [state.get(self.engine_app_state_key)], [None] when the
    key is missing. *)
Definition provide_engine (self : SQLAlchemyAsyncConfig)
    (state : gmap string nat) : option nat :=
  state !! engine_app_state_key self.

(** The state after the configs of a list, each with its engine and its
    session maker, have updated it in order. *)
Definition update_all (configs : list (SQLAlchemyAsyncConfig * nat * nat))
    (state : gmap string nat) : gmap string nat :=
  fold_left (λ st c, update_app_state c.1.1 c.1.2 c.2 st) configs state.

(** The application-state keys a list of configs writes. *)
Definition state_keys (configs : list (SQLAlchemyAsyncConfig * nat * nat)) : list string :=
  configs ≫= λ c, [engine_app_state_key c.1.1; session_maker_app_state_key c.1.1].

(** ** [lifespan] *)

Inductive app_call : Type :=
  | ACreateAll
  | ADispose (object : nat).

Record App := mkApp {
  app_state : gmap string nat;    (* [app.state] *)
  app_calls : list app_call       (* what [lifespan] has awaited, oldest first *)
}.

Definition AppM (A : Type) : Type := App → (exn + A) * App.

Definition app_ret {A} (a : A) : AppM A := λ a0, (inr a, a0).
Definition app_bind {A B} (k : A → AppM B) (m : AppM A) : AppM B :=
  λ a, match m a with
       | (inl e, a') => (inl e, a')
       | (inr x, a') => k x a'
       end.

#[global] Instance AppM_ret : MRet AppM := @app_ret.
#[global] Instance AppM_bind : MBind AppM := @app_bind.

Definition app_try_finally (body fin : AppM unit) : AppM unit :=
  λ a, match body a with
       | (r, a') =>
           match fin a' with
           | (inl e, a'') => (inl e, a'')
           | (inr _, a'') => (r, a'')
           end
       end.

(** An awaited call: logged, then it returns or raises. *)
Definition app_await (c : app_call) (r : option exn) : AppM unit :=
  λ a, ((match r with Some e => inl e | None => inr tt end),
        {| app_state := app_state a; app_calls := app_calls a ++ [c] |}).

(** [app.state.update(deps)] *)
Definition app_state_update (deps : gmap string nat) : AppM unit :=
  λ a, (inr tt, {| app_state := deps ∪ app_state a; app_calls := app_calls a |}).

(** What runs while the context manager is open: it may change the state of
    the application, and it returns or raises. *)
Definition app_run (body : gmap string nat → option exn * gmap string nat) : AppM unit :=
  λ a, ((match (body (app_state a)).1 with Some e => inl e | None => inr tt end),
        {| app_state := (body (app_state a)).2; app_calls := app_calls a |}).

(** The method of [SQLAlchemyAsyncConfig]; the module keeps its name apart
    from the field [lifespan] of [AppConfig]. *)
Module AsyncConfig.

Section Lifespan.

(** [hasattr(engine, "dispose")], and what [dispose()] and
    [create_all_metadata] do when awaited. *)
Variable has_dispose : nat → bool.
Variable dispose_result : nat → option exn.
Variable create_all_result : option exn.

(** [lifespan], applied to what runs at its [yield].  [create_all] is the
    field of that name, declared on the parent class. *)
Definition lifespan (self : SQLAlchemyAsyncConfig) (create_all : bool)
    (engine maker : nat)
    (body : gmap string nat → option exn * gmap string nat) : AppM unit :=
  let deps := create_app_state_items self engine maker in
  app_state_update deps ;;
  app_try_finally
    ((if create_all then app_await ACreateAll create_all_result else app_ret tt) ;;
     app_run body)
    (match deps !! engine_dependency_key self with
     | Some engine =>
         if has_dispose engine
         then app_await (ADispose engine) (dispose_result engine)
         else app_ret tt
     | None => app_ret tt
     end).

End Lifespan.

End AsyncConfig.

(** The calls that running [m] in [a] adds. *)
Definition app_performed {A} (m : AppM A) (a : App) : list app_call :=
  drop (length (app_calls a)) (app_calls (m a).2).

(** ** Vocabulary for [on_app_init] *)

(** The dependencies after the loop of [on_app_init]. *)
Definition register_dependencies (configs : list SQLAlchemyAsyncConfig)
    (deps : gmap string Dependency) : gmap string Dependency :=
  fold_left (λ d config,
               <[session_dependency_key config := ProvideSession config]>
                 (<[engine_dependency_key config := ProvideEngine config]> d))
    configs deps.

Definition dependency_keys (configs : list SQLAlchemyAsyncConfig) : list string :=
  configs ≫= λ config, [engine_dependency_key config; session_dependency_key config].

(** ** Messages in sequence *)




(** ** Test helpers ([tests/helpers.py]) *)

(** The values [anext_] tells apart: the class [NoValue], an instance of it,
    anything else. *)
Inductive PyValue : Type :=
  | NoValueClass
  | NoValueInstance
  | Value (v : nat).

(** [isinstance(v, NoValue)]: the class [NoValue] is not an instance of
    itself. *)
Definition isinstance_NoValue (v : PyValue) : bool :=
  match v with
  | NoValueInstance => true
  | _ => false
  end.

(** What [await iterable.__anext__()] does. *)
Inductive next_result : Type :=
  | Yields (v : PyValue)
  | Exhausted                  (* raises [StopAsyncIteration] *)
  | Fails (e : exn).

Inductive anext_outcome : Type :=
  | AReturns (v : PyValue)
  | ARaisesStopAsyncIteration
  | ARaises (e : exn).

Definition anext_ (iterable : next_result) (default : PyValue) : anext_outcome :=
  let has_default := negb (isinstance_NoValue default) in
  match iterable with
  | Yields v => AReturns v
  | Exhausted => if has_default then AReturns default else ARaisesStopAsyncIteration
  | Fails e => ARaises e
  end.

(** The value of the parameter [default] when the caller gives none. *)
Definition anext_default : PyValue := NoValueClass.

(** [purge_module], on [sys.modules] and the files on disk.
    [cache_from_source] is [importlib.util.cache_from_source]; [unlink] with
    [missing_ok=True] accepts a missing file. *)
Definition purge_module (cache_from_source : string → string)
    (module_names : list string) (path : string)
    (sys_modules : gmap string nat) (files : gset string)
    : gmap string nat * gset string :=
  (fold_left (λ modules name,
                if bool_decide (is_Some (modules !! name))
                then delete name modules else modules)
     module_names sys_modules,
   files ∖ {[cache_from_source path]}).

(** * Properties *)

(** ** Running the handlers *)

Lemma performed_app {A} (m : M A) (w : World) (added : list event) :
  trace (m w).2 = trace w ++ added → performed m w = added.
Proof.
  intros Heq. unfold performed. rewrite Heq. by rewrite drop_app_length.
Qed.

Section HandlerFacts.

Variable orm : Orm.
Variable T : gset string.

Lemma world_eta (w : World) :
  {| scope := scope w; trace := trace w;
     next_session := next_session w; async_context := async_context w |} = w.
Proof. by destruct w. Qed.

Lemma close_and_delete_run key message w :
  close_and_delete orm T key (scope w !! key) message w
  = (cleanup_result orm T (scope w !! key) message,
     after_handler orm T key message (cleanup_events T (scope w !! key) message) w).
Proof.
  unfold close_and_delete, cleanup_result, cleanup_events, after_handler, cleanup_scope.
  destruct (scope w !! key) as [s|]; simpl.
  - destruct (is_terminus T message); simpl.
    + unfold mbind, M_bind, bind, session_close, orm_call.
      destruct (close_result orm s); reflexivity.
    + by rewrite app_nil_r, world_eta.
  - by rewrite app_nil_r, world_eta.
Qed.

Lemma default_handler_run key message w :
  default_handler_maker orm T key message w
  = (cleanup_result orm T (scope w !! key) message,
     after_handler orm T key message (cleanup_events T (scope w !! key) message) w).
Proof. apply close_and_delete_run. Qed.

Lemma autocommit_handler_run cor ecs ers key message w :
  autocommit_handler orm T cor ecs ers key message w
  = (match cleanup_result orm T (scope w !! key) message with
     | inl e => inl e
     | inr _ => decision_result orm cor ecs ers (scope w !! key) message
     end,
     after_handler orm T key message
       (decision_events cor ecs ers (scope w !! key) message
          ++ cleanup_events T (scope w !! key) message) w).
Proof.
  unfold autocommit_handler, mbind, M_bind, bind, get_aa_scope_state, try_finally.
  cbn beta iota.
  set (body := match scope w !! key with Some _ => _ | None => _ end).
  assert (Hbody : body w
                  = (decision_result orm cor ecs ers (scope w !! key) message,
                     {| scope := scope w;
                        trace := trace w
                                 ++ decision_events cor ecs ers (scope w !! key) message;
                        next_session := next_session w;
                        async_context := async_context w |})).
  { unfold body, decision_result, decision_events.
    destruct (scope w !! key) as [s|]; simpl; [|by rewrite app_nil_r, world_eta].
    destruct (String.eqb _ _); simpl; [|by rewrite app_nil_r, world_eta].
    destruct (should_commit _ _ _ _); unfold session_commit, session_rollback, orm_call.
    - by destruct (commit_result orm s).
    - by destruct (rollback_result orm s). }
  rewrite Hbody.
  set (w1 := {| scope := scope w; trace := _; next_session := _; async_context := _ |}).
  pose proof (close_and_delete_run key message w1) as Hfin.
  change (scope w1) with (scope w) in Hfin. rewrite Hfin.
  unfold after_handler, w1. simpl. rewrite <- app_assoc.
  by destruct (cleanup_result orm T (scope w !! key) message) as [e|[]].
Qed.

Lemma performed_default key message w :
  performed (default_handler_maker orm T key message) w
  = cleanup_events T (scope w !! key) message.
Proof. apply performed_app. by rewrite default_handler_run. Qed.

Lemma performed_autocommit cor ecs ers key message w :
  performed (autocommit_handler orm T cor ecs ers key message) w
  = decision_events cor ecs ers (scope w !! key) message
    ++ cleanup_events T (scope w !! key) message.
Proof. apply performed_app. by rewrite autocommit_handler_run. Qed.

End HandlerFacts.

(** ** The commit decision *)

Lemma commit_range_spec cor status :
  commit_range cor status = true
  ↔ (200 ≤ status < (if cor then 400 else 300))%Z.
Proof.
  unfold commit_range. rewrite andb_true_iff, Z.leb_le, Z.ltb_lt. tauto.
Qed.

Lemma should_commit_spec cor (ecs ers : gset Z) status :
  should_commit cor ecs ers status = true
  ↔ ((200 ≤ status < (if cor then 400 else 300))%Z ∨ status ∈ ecs) ∧ status ∉ ers.
Proof.
  unfold should_commit.
  rewrite andb_true_iff, orb_true_iff, negb_true_iff, commit_range_spec.
  rewrite bool_decide_eq_true, bool_decide_eq_false. tauto.
Qed.

Lemma maker_returns orm T cor ecs ers key handler :
  autocommit_handler_maker orm T cor ecs ers key = inr handler →
  handler = autocommit_handler orm T cor (default ∅ ecs) (default ∅ ers) key.
Proof.
  unfold autocommit_handler_maker. case_bool_decide; congruence.
Qed.

Lemma elem_of_cleanup_events T session message e :
  e ∈ cleanup_events T session message
  ↔ ∃ s, e = EClose s ∧ session = Some s ∧ msg_type message ∈ T.
Proof.
  unfold cleanup_events, is_terminus. destruct session as [s|].
  - case_bool_decide; set_solver.
  - set_solver.
Qed.

(** C1.  The handler made by [autocommit_handler_maker], given a
    response-start message while a session is stored under the scope key,
    commits that session if and only if the status is in [[200, 300)]
    ([[200, 400)] with [commit_on_redirect]) or among the extra commit
    statuses, and is not among the extra rollback statuses; in every other
    such case it rolls the session back.  It commits and rolls back nothing
    else. *)
Theorem autocommit_commits_iff (orm : Orm) (T : gset string)
    (commit_on_redirect : bool) (extra_commit_statuses extra_rollback_statuses : option (gset Z))
    (key : string) (handler : Message → M unit) (message : Message) (w : World) (s : Session) :
  autocommit_handler_maker orm T commit_on_redirect extra_commit_statuses
    extra_rollback_statuses key = inr handler →
  msg_type message = HTTP_RESPONSE_START →
  scope w !! key = Some s →
  let status := msg_status message in
  let commits :=
    ((200 ≤ status < (if commit_on_redirect then 400 else 300))%Z
     ∨ status ∈ default (∅ : gset Z) extra_commit_statuses)
    ∧ status ∉ default (∅ : gset Z) extra_rollback_statuses in
  (ECommit s ∈ performed (handler message) w ↔ commits)
  ∧ (ERollback s ∈ performed (handler message) w ↔ ¬ commits)
  ∧ (∀ s', s' ≠ s →
       (ECommit s' ∉ performed (handler message) w)
       ∧ (ERollback s' ∉ performed (handler message) w)).
Proof.
  intros Hmk Hty Hs status commits.
  apply maker_returns in Hmk. subst handler.
  rewrite performed_autocommit.
  unfold decision_events. rewrite Hs, Hty, String.eqb_refl.
  pose proof (should_commit_spec commit_on_redirect (default ∅ extra_commit_statuses)
                (default ∅ extra_rollback_statuses) (msg_status message)) as Hsc.
  fold status in Hsc. fold commits in Hsc.
  assert (Hcl : ∀ e, e ∈ cleanup_events T (Some s) message → ∃ s0, e = EClose s0).
  { intros e He. apply elem_of_cleanup_events in He as (s0 & -> & _). eauto. }
  destruct (should_commit _ _ _ _) eqn:Hd.
  - assert (commits) as Hc by (by apply Hsc).
    split_and!.
    + split; [done|]. intros _. set_solver.
    + split; [|done]. intros [Hin|Hin]%elem_of_app; [set_solver|].
      by apply Hcl in Hin as [? ?].
    + intros s' Hne. split; intros [Hin|Hin]%elem_of_app;
        try (by apply Hcl in Hin as [? ?]); set_solver.
  - assert (¬ commits) as Hc by (intros Hc; apply Hsc in Hc; done).
    split_and!.
    + split; [|done]. intros [Hin|Hin]%elem_of_app; [set_solver|].
      by apply Hcl in Hin as [? ?].
    + split; [done|]. intros _. set_solver.
    + intros s' Hne. split; intros [Hin|Hin]%elem_of_app;
        try (by apply Hcl in Hin as [? ?]); set_solver.
Qed.

Lemma autocommit_commits_iff_witness :
  autocommit_handler_maker orm_ok terminus_events false None (Some {[404%Z]}) "db"
    = inr (autocommit_handler orm_ok terminus_events false ∅ {[404%Z]} "db")
  ∧ msg_type (mkMessage "http.response.start" 201) = HTTP_RESPONSE_START
  ∧ scope world1 !! "db" = Some 7
  ∧ (ECommit 7 ∈ performed
       (autocommit_handler orm_ok terminus_events false ∅ {[404%Z]} "db"
          (mkMessage "http.response.start" 201)) world1
     ↔ ((200 ≤ 201 < 300)%Z ∨ 201%Z ∈ (∅ : gset Z)) ∧ 201%Z ∉ ({[404%Z]} : gset Z)).
Proof.
  assert (Hmk : autocommit_handler_maker orm_ok terminus_events false None
                  (Some {[404%Z]}) "db"
                = inr (autocommit_handler orm_ok terminus_events false ∅ {[404%Z]} "db"))
    by reflexivity.
  assert (Hs : scope world1 !! "db" = Some 7) by reflexivity.
  split_and!; [exact Hmk | reflexivity | exact Hs |].
  exact (proj1 (autocommit_commits_iff orm_ok terminus_events false None (Some {[404%Z]})
                  "db" _ (mkMessage "http.response.start" 201) world1 7
                  Hmk eq_refl Hs)).
Defined.

(** ** The maker's guard *)

Lemma size_pos_iff_shared (c r : gset Z) :
  0 < size (c ∩ r) ↔ ∃ status, status ∈ c ∧ status ∈ r.
Proof.
  split.
  - intros Hpos. apply size_pos_elem_of in Hpos as [x Hx].
    exists x. set_solver.
  - intros (x & Hc & Hr).
    assert (c ∩ r ≢ ∅) as Hne by set_solver.
    apply size_non_empty_iff in Hne. lia.
Qed.

(** C8.  [autocommit_handler_maker] raises if and only if the extra commit
    statuses and the extra rollback statuses ([None] counting as the empty
    set) share a status code, and what it raises is a [ValueError]; when
    they share none it returns a handler. *)
Theorem autocommit_handler_maker_raises_iff (orm : Orm) (T : gset string)
    (commit_on_redirect : bool) (extra_commit_statuses extra_rollback_statuses : option (gset Z))
    (key : string) :
  let made := autocommit_handler_maker orm T commit_on_redirect extra_commit_statuses
                extra_rollback_statuses key in
  let shared := ∃ status : Z, status ∈ default (∅ : gset Z) extra_commit_statuses
                              ∧ status ∈ default (∅ : gset Z) extra_rollback_statuses in
  ((∃ msg, made = inl (ValueError msg)) ↔ shared)
  ∧ ((∃ e, made = inl e) ↔ shared)
  ∧ ((∃ handler, made = inr handler) ↔ ¬ shared).
Proof.
  intros made shared. unfold made, autocommit_handler_maker.
  pose proof (size_pos_iff_shared (default ∅ extra_commit_statuses)
                (default ∅ extra_rollback_statuses)) as Hiff.
  fold shared in Hiff.
  case_bool_decide as Hd.
  - assert shared as Hsh by (by apply Hiff).
    split_and!; split; eauto; try done.
    intros [h Hh]. discriminate.
  - assert (¬ shared) as Hsh by (intros Hsh; apply Hiff in Hsh; done).
    split_and!; split; eauto; try done.
    + intros [m Hm]. discriminate.
    + intros [e He]. discriminate.
Qed.

(** ** Commit, rollback, or neither *)

Lemma elem_of_decision_events cor ecs ers session message e :
  e ∈ decision_events cor ecs ers session message
  ↔ ∃ s, session = Some s ∧ msg_type message = HTTP_RESPONSE_START
         ∧ e = (if should_commit cor ecs ers (msg_status message)
                then ECommit s else ERollback s).
Proof.
  unfold decision_events. destruct session as [s|]; [|set_solver].
  destruct (String.eqb_spec (msg_type message) HTTP_RESPONSE_START) as [Heq|Hne].
  - destruct (should_commit _ _ _ _); set_solver.
  - set_solver.
Qed.

Lemma transaction_event_performed orm T cor ecs ers key message w s :
  scope w !! key = Some s →
  msg_type message = HTTP_RESPONSE_START →
  ECommit s ∈ performed (autocommit_handler orm T cor ecs ers key message) w
  ∨ ERollback s ∈ performed (autocommit_handler orm T cor ecs ers key message) w.
Proof.
  intros Hs Hty. rewrite performed_autocommit.
  destruct (should_commit cor ecs ers (msg_status message)) eqn:Hd; [left|right];
    apply elem_of_app; left; apply elem_of_decision_events;
    exists s; rewrite Hd; done.
Qed.

(** C6, as the spec has it, fails: no status code makes the handler skip the
    transaction.  Whatever the status of a response-start message, a handler
    that finds a session stored commits it or rolls it back. *)
Lemma no_status_skips_the_transaction :
  ¬ ∃ (orm : Orm) (T : gset string) (commit_on_redirect : bool)
      (extra_commit_statuses extra_rollback_statuses : option (gset Z))
      (key : string) (handler : Message → M unit) (status : Z) (w : World) (s : Session),
      autocommit_handler_maker orm T commit_on_redirect extra_commit_statuses
        extra_rollback_statuses key = inr handler
      ∧ scope w !! key = Some s
      ∧ ∀ s', (ECommit s' ∉ performed (handler (mkMessage HTTP_RESPONSE_START status)) w)
              ∧ (ERollback s' ∉ performed (handler (mkMessage HTTP_RESPONSE_START status)) w).
Proof.
  intros (orm & T & cor & ecs & ers & key & handler & status & w & s & Hmk & Hs & Hno).
  apply maker_returns in Hmk. subst handler.
  destruct (Hno s) as [Hc Hr].
  destruct (transaction_event_performed orm T cor (default ∅ ecs) (default ∅ ers) key
              (mkMessage HTTP_RESPONSE_START status) w s Hs eq_refl); contradiction.
Qed.

(** C6, amended.  The handler performs neither a commit nor a rollback
    exactly when no session is stored under the scope key or the message is
    not a response-start message; the status code plays no part in that.
    For a response-start message with a session stored it performs exactly
    one of the two, for every status code. *)
Theorem autocommit_skips_iff (orm : Orm) (T : gset string)
    (commit_on_redirect : bool) (extra_commit_statuses extra_rollback_statuses : option (gset Z))
    (key : string) (handler : Message → M unit) (message : Message) (w : World) :
  autocommit_handler_maker orm T commit_on_redirect extra_commit_statuses
    extra_rollback_statuses key = inr handler →
  ((∀ s', (ECommit s' ∉ performed (handler message) w)
          ∧ (ERollback s' ∉ performed (handler message) w))
   ↔ scope w !! key = None ∨ msg_type message ≠ HTTP_RESPONSE_START)
  ∧ (∀ s, scope w !! key = Some s → msg_type message = HTTP_RESPONSE_START →
       (ECommit s ∈ performed (handler message) w
        ∧ ERollback s ∉ performed (handler message) w)
       ∨ (ERollback s ∈ performed (handler message) w
          ∧ ECommit s ∉ performed (handler message) w)).
Proof.
  intros Hmk. apply maker_returns in Hmk. subst handler.
  set (ecs := default ∅ extra_commit_statuses).
  set (ers := default ∅ extra_rollback_statuses).
  assert (Hin : ∀ e, (∀ s0, e ≠ EClose s0) →
            e ∈ performed (autocommit_handler orm T commit_on_redirect ecs ers key message) w
            ↔ e ∈ decision_events commit_on_redirect ecs ers (scope w !! key) message).
  { intros e Hne. rewrite performed_autocommit, elem_of_app.
    split; [|by left]. intros [?|Hcl]; [done|].
    apply elem_of_cleanup_events in Hcl as (s0 & -> & _). by destruct (Hne s0). }
  split.
  - split.
    + intros Hno. destruct (scope w !! key) as [s|] eqn:Hs; [|by left].
      right. intros Hty.
      destruct (Hno s) as [Hc Hr].
      destruct (transaction_event_performed orm T commit_on_redirect ecs ers key
                  message w s Hs Hty); contradiction.
    + intros Hnone s'. split; rewrite Hin by done;
        rewrite elem_of_decision_events; intros (s0 & Hs0 & Hty & _);
        destruct Hnone; congruence.
  - intros s Hs Hty. rewrite !Hin by done. rewrite !elem_of_decision_events.
    destruct (should_commit commit_on_redirect ecs ers (msg_status message)).
    + left. split; [by exists s|]. intros (s0 & _ & _ & ?). done.
    + right. split; [by exists s|]. intros (s0 & _ & _ & ?). done.
Qed.

Lemma autocommit_skips_iff_witness :
  autocommit_handler_maker orm_ok terminus_events true None None "db"
    = inr (autocommit_handler orm_ok terminus_events true ∅ ∅ "db")
  ∧ ((∀ s', (ECommit s' ∉ performed
               (autocommit_handler orm_ok terminus_events true ∅ ∅ "db"
                  (mkMessage "http.response.body" 0)) world1)
            ∧ (ERollback s' ∉ performed
                 (autocommit_handler orm_ok terminus_events true ∅ ∅ "db"
                    (mkMessage "http.response.body" 0)) world1))
     ↔ scope world1 !! "db" = None
       ∨ msg_type (mkMessage "http.response.body" 0) ≠ HTTP_RESPONSE_START).
Proof.
  assert (Hmk : autocommit_handler_maker orm_ok terminus_events true None None "db"
                = inr (autocommit_handler orm_ok terminus_events true ∅ ∅ "db"))
    by reflexivity.
  split; [exact Hmk|].
  exact (proj1 (autocommit_skips_iff orm_ok terminus_events true None None "db" _
                  (mkMessage "http.response.body" 0) world1 Hmk)).
Defined.

(** ** Closing the session and dropping it from the scope *)

Lemma is_terminus_spec T message :
  is_terminus T message = true ↔ msg_type message ∈ T.
Proof. unfold is_terminus. apply bool_decide_eq_true. Qed.

Lemma cleanup_scope_deleted orm T key message (sc : gmap string Session) s :
  msg_type message ∈ T → sc !! key = Some s → close_result orm s = None →
  cleanup_scope orm T key message sc = delete key sc.
Proof.
  intros HT Hs Hc. unfold cleanup_scope.
  apply is_terminus_spec in HT. by rewrite Hs, HT, Hc.
Qed.

Lemma cleanup_scope_kept orm T key message (sc : gmap string Session) :
  ¬ (∃ s, msg_type message ∈ T ∧ sc !! key = Some s ∧ close_result orm s = None) →
  cleanup_scope orm T key message sc = sc.
Proof.
  intros Hno. unfold cleanup_scope.
  destruct (sc !! key) as [s|] eqn:Hs; [|done].
  destruct (is_terminus T message) eqn:HT; [|done].
  destruct (close_result orm s) eqn:Hc; [done|].
  destruct Hno. exists s. by rewrite <- is_terminus_spec.
Qed.

Lemma cleanup_scope_cases orm T key message (sc : gmap string Session) :
  cleanup_scope orm T key message sc = sc
  ∨ (cleanup_scope orm T key message sc = delete key sc
     ∧ msg_type message ∈ T ∧ is_Some (sc !! key)).
Proof.
  unfold cleanup_scope.
  destruct (sc !! key) as [s|] eqn:Hs; [|by left].
  destruct (is_terminus T message) eqn:HT; [|by left].
  destruct (close_result orm s); [by left|].
  right. by rewrite <- is_terminus_spec.
Qed.

(** C10.  The handler made by [default_handler_maker] never commits and never
    rolls back.  All it does is call [close] on the session stored under the
    scope key and delete that entry, and only for a session-terminus
    message: every ORM call it issues is that [close], the scope either stays
    as it was or loses that entry, and a message of any other type leaves
    the world untouched. *)
Theorem default_handler_only_closes (orm : Orm) (T : gset string) (key : string)
    (message : Message) (w : World) :
  let run := default_handler_maker orm T key message w in
  let calls := performed (default_handler_maker orm T key message) w in
  (∀ s, (ECommit s ∉ calls) ∧ (ERollback s ∉ calls))
  ∧ (∀ e, e ∈ calls →
       ∃ s, e = EClose s ∧ scope w !! key = Some s ∧ msg_type message ∈ T)
  ∧ trace run.2 = trace w ++ calls
  ∧ (scope run.2 = scope w
     ∨ (scope run.2 = delete key (scope w)
        ∧ msg_type message ∈ T ∧ is_Some (scope w !! key)))
  ∧ next_session run.2 = next_session w
  ∧ async_context run.2 = async_context w
  ∧ (msg_type message ∉ T → run = (inr tt, w)).
Proof.
  intros run calls. unfold run, calls.
  rewrite performed_default, default_handler_run. simpl.
  split_and!; try done.
  - intros s. split; intros (s0 & ? & _)%elem_of_cleanup_events; done.
  - intros e He. by apply elem_of_cleanup_events.
  - apply cleanup_scope_cases.
  - intros HT. rewrite <- is_terminus_spec in HT. apply not_true_is_false in HT.
    unfold cleanup_result, after_handler, cleanup_events, cleanup_scope.
    destruct (scope w !! key); rewrite ?HT, ?app_nil_r, world_eta; done.
Qed.

(** C3, as the spec has it, fails when [close] raises: the message is a
    session-terminus event and a session is stored, the handler calls
    [close], the exception leaves the handler, and the session is still in
    the scope. *)
Lemma cleanup_skipped_when_close_raises :
  msg_type (mkMessage "http.disconnect" 0) ∈ terminus_events
  ∧ scope world1 !! "db" = Some 7
  ∧ performed (default_handler_maker orm_close_fails terminus_events "db"
                 (mkMessage "http.disconnect" 0)) world1 = [EClose 7]
  ∧ (default_handler_maker orm_close_fails terminus_events "db"
       (mkMessage "http.disconnect" 0) world1).1 = inl (OrmError 1)
  ∧ scope (default_handler_maker orm_close_fails terminus_events "db"
             (mkMessage "http.disconnect" 0) world1).2 !! "db" = Some 7.
Proof.
  split_and!; reflexivity.
Qed.

Lemma cleanup_result_propagates orm T message s e :
  msg_type message ∈ T → close_result orm s = Some e →
  cleanup_result orm T (Some s) message = inl e.
Proof.
  intros HT Hc. unfold cleanup_result. apply is_terminus_spec in HT. by rewrite HT, Hc.
Qed.

(** C3, amended.  Each before-send handler, the default one and the one made
    by [autocommit_handler_maker], calls [close] on the stored session
    exactly when the message type is a session-terminus event and a session
    is stored under the scope key; it deletes the entry from the scope
    exactly when, in addition, that [close] returns.  In every other case
    the scope is left as it was.  When that [close] raises, its exception is
    the one that leaves the handler, and the entry stays.  Nothing is
    assumed of [commit] and [rollback]: in the autocommit handler this holds
    also when they raise. *)
Theorem handlers_cleanup_iff (orm : Orm) (T : gset string)
    (commit_on_redirect : bool) (extra_commit_statuses extra_rollback_statuses : option (gset Z))
    (key : string) (autocommit : Message → M unit) (message : Message) (w : World) :
  autocommit_handler_maker orm T commit_on_redirect extra_commit_statuses
    extra_rollback_statuses key = inr autocommit →
  ∀ handler, handler = default_handler_maker orm T key ∨ handler = autocommit →
    let deletes :=
      ∃ s, msg_type message ∈ T ∧ scope w !! key = Some s ∧ close_result orm s = None in
    (∀ s, EClose s ∈ performed (handler message) w
          ↔ msg_type message ∈ T ∧ scope w !! key = Some s)
    ∧ (deletes → scope (handler message w).2 = delete key (scope w))
    ∧ (¬ deletes → scope (handler message w).2 = scope w)
    ∧ (∀ s e, msg_type message ∈ T → scope w !! key = Some s →
         close_result orm s = Some e →
         (handler message w).1 = inl e
         ∧ scope (handler message w).2 !! key = Some s).
Proof.
  intros Hmk handler Hh deletes. apply maker_returns in Hmk. subst autocommit.
  assert (Hcl : ∀ s, EClose s ∈ cleanup_events T (scope w !! key) message
                     ↔ msg_type message ∈ T ∧ scope w !! key = Some s).
  { intros s. rewrite elem_of_cleanup_events. split.
    - intros (s0 & [= <-] & ? & ?). done.
    - intros [? ?]. by exists s. }
  assert (Hkept : ∀ s e, scope w !! key = Some s → close_result orm s = Some e →
            cleanup_scope orm T key message (scope w) !! key = Some s).
  { intros s e Hs Hc. rewrite cleanup_scope_kept; [done|].
    intros (s0 & _ & Hs0 & Hc0). congruence. }
  destruct Hh as [-> | ->].
  - rewrite performed_default, default_handler_run. simpl. split_and!.
    + done.
    + intros (s & HT & Hs & Hc). by eapply cleanup_scope_deleted.
    + apply cleanup_scope_kept.
    + intros s e HT Hs Hc. rewrite Hs. split; [|by eapply Hkept].
      by apply cleanup_result_propagates.
  - rewrite performed_autocommit, autocommit_handler_run. simpl. split_and!.
    + intros s. rewrite elem_of_app, <- Hcl. split; [|by right].
      intros [Hd|?]; [|done].
      apply elem_of_decision_events in Hd as (s0 & _ & _ & Hd).
      by destruct (should_commit _ _ _ _).
    + intros (s & HT & Hs & Hc). by eapply cleanup_scope_deleted.
    + apply cleanup_scope_kept.
    + intros s e HT Hs Hc. rewrite Hs. split; [|by eapply Hkept].
      by rewrite (cleanup_result_propagates orm T message s e HT Hc).
Qed.

Lemma handlers_cleanup_iff_witness :
  autocommit_handler_maker orm_commit_fails terminus_events false None None "db"
    = inr (autocommit_handler orm_commit_fails terminus_events false ∅ ∅ "db")
  ∧ (autocommit_handler orm_commit_fails terminus_events false ∅ ∅ "db"
       (mkMessage "http.response.start" 200) world1).1 = inl (OrmError 2)
  ∧ scope (autocommit_handler orm_commit_fails terminus_events false ∅ ∅ "db"
             (mkMessage "http.response.start" 200) world1).2
    = delete "db" (scope world1).
Proof.
  assert (Hmk : autocommit_handler_maker orm_commit_fails terminus_events false None
                  None "db"
                = inr (autocommit_handler orm_commit_fails terminus_events false ∅ ∅ "db"))
    by reflexivity.
  split_and!; [exact Hmk | reflexivity |].
  apply (proj1 (proj2 (handlers_cleanup_iff orm_commit_fails terminus_events false None
                         None "db" _ (mkMessage "http.response.start" 200) world1 Hmk
                         _ (or_intror eq_refl)))).
  exists 7. split_and!; reflexivity.
Defined.

(** ** [provide_session] *)

Section ProvideSession.

Variable self : SQLAlchemyAsyncConfig.
Variable state : gmap string nat.

Lemma provide_session_cached w s :
  scope w !! session_scope_key self = Some s →
  provide_session self state w
  = (inr s, {| scope := scope w; trace := trace w;
               next_session := next_session w; async_context := true |}).
Proof.
  intros Hs. unfold provide_session, mbind, M_bind, bind, get_aa_scope_state.
  cbn beta iota. by rewrite Hs.
Qed.

Lemma provide_session_created w maker :
  scope w !! session_scope_key self = None →
  state !! session_maker_app_state_key self = Some maker →
  provide_session self state w
  = (inr (next_session w),
     {| scope := <[session_scope_key self := next_session w]> (scope w);
        trace := trace w ++ [EMake maker (next_session w)];
        next_session := S (next_session w);
        async_context := true |}).
Proof.
  intros Hs Hm.
  unfold provide_session, mbind, M_bind, bind, get_aa_scope_state, state_getitem.
  cbn beta iota. by rewrite Hs, Hm.
Qed.

(** Without a session maker in the application state the lookup fails. *)
Lemma provide_session_no_maker w :
  scope w !! session_scope_key self = None →
  state !! session_maker_app_state_key self = None →
  provide_session self state w = (inl (KeyError (session_maker_app_state_key self)), w).
Proof.
  intros Hs Hm.
  unfold provide_session, mbind, M_bind, bind, get_aa_scope_state, state_getitem.
  cbn beta iota. by rewrite Hs, Hm.
Qed.

Lemma provide_session_times_cached n w s :
  scope w !! session_scope_key self = Some s →
  let run := provide_session_times n self state w in
  run.1 = inr (replicate n s)
  ∧ scope run.2 = scope w
  ∧ trace run.2 = trace w
  ∧ next_session run.2 = next_session w.
Proof.
  revert w. induction n as [|n IH]; intros w Hs; [done|].
  cbn [provide_session_times]. unfold mbind, M_bind, bind.
  rewrite (provide_session_cached w s Hs).
  set (w1 := {| scope := scope w; trace := _; next_session := _; async_context := _ |}).
  destruct (IH w1 Hs) as (Hr & Hsc & Htr & Hn).
  destruct (provide_session_times n self state w1) as [[e|l] w2]; simpl in *; [done|].
  by injection Hr as ->.
Qed.

End ProvideSession.

(** C2.  [provide_session] is idempotent per scope.  On a scope without a
    session, the first call invokes the session maker found in the
    application state under [session_maker_app_state_key], once, stores the
    new session in the scope under [session_scope_key] and returns it; each
    of the [n] calls that follow returns that same session, invokes nothing
    and leaves the scope as the first call left it. *)
Theorem provide_session_idempotent (self : SQLAlchemyAsyncConfig)
    (state : gmap string nat) (w : World) (maker : nat) (n : nat) :
  scope w !! session_scope_key self = None →
  state !! session_maker_app_state_key self = Some maker →
  let first := provide_session self state w in
  let later := provide_session_times n self state first.2 in
  ∃ session,
    first.1 = inr session
    ∧ performed (provide_session self state) w = [EMake maker session]
    ∧ scope first.2 = <[session_scope_key self := session]> (scope w)
    ∧ later.1 = inr (replicate n session)
    ∧ performed (provide_session_times n self state) first.2 = []
    ∧ scope later.2 = scope first.2.
Proof.
  intros Hs Hm first later. exists (next_session w).
  assert (Hfirst : first = provide_session self state w) by done.
  rewrite (provide_session_created self state w maker Hs Hm) in Hfirst.
  assert (Hstored : scope first.2 !! session_scope_key self = Some (next_session w)).
  { rewrite Hfirst. simpl. apply lookup_insert_eq. }
  destruct (provide_session_times_cached self state n first.2 (next_session w) Hstored)
    as (Hr & Hsc & Htr & _).
  split_and!.
  - by rewrite Hfirst.
  - apply performed_app. fold first. by rewrite Hfirst.
  - by rewrite Hfirst.
  - exact Hr.
  - apply performed_app. rewrite Htr. by rewrite app_nil_r.
  - exact Hsc.
Qed.

Lemma provide_session_idempotent_witness :
  scope world0 !! "db" = None
  ∧ ({[ "session_maker_class" := 3%nat ]} : gmap string nat) !! "session_maker_class" = Some 3%nat
  ∧ ∃ session,
      (provide_session (mkConfig BSNone "db_engine" "db_session" "db_engine"
                          "session_maker_class" "db" true)
         {[ "session_maker_class" := 3%nat ]} world0).1 = inr session
      ∧ performed (provide_session (mkConfig BSNone "db_engine" "db_session" "db_engine"
                                      "session_maker_class" "db" true)
                     {[ "session_maker_class" := 3%nat ]}) world0
        = [EMake 3 session].
Proof.
  assert (Hs : scope world0 !! "db" = None) by reflexivity.
  assert (Hm : ({[ "session_maker_class" := 3%nat ]} : gmap string nat)
                 !! "session_maker_class" = Some 3%nat) by reflexivity.
  split_and!; [exact Hs | exact Hm |].
  destruct (provide_session_idempotent
              (mkConfig BSNone "db_engine" "db_session" "db_engine"
                 "session_maker_class" "db" true)
              {[ "session_maker_class" := 3%nat ]} world0 3 2 Hs Hm)
    as (session & H1 & H2 & _).
  exists session. split; [exact H1 | exact H2].
Defined.

(** ** Unique keys *)

Lemma append_nonempty_ne (key rest : string) (a : Ascii.ascii) :
  key ≠ key +:+ String a rest.
Proof.
  induction key as [|c key IH]; simpl; [done|].
  intros [= Heq]. by apply IH.
Qed.

Lemma suffixed_inj key : Inj (=) (=) (suffixed key).
Proof.
  intros i j Heq. unfold suffixed in Heq.
  apply (inj (String.append key)) in Heq. simpl in Heq.
  injection Heq as Heq. by apply pretty_nat_inj in Heq.
Qed.

Lemma candidate_inj key : Inj (=) (=) (candidate key).
Proof.
  intros [|i] [|j] Heq; simpl in Heq.
  - done.
  - by apply append_nonempty_ne in Heq.
  - symmetry in Heq. by apply append_nonempty_ne in Heq.
  - by apply suffixed_inj in Heq.
Qed.

Lemma default_new_key_at key n : default key (new_key_at key n) = candidate key n.
Proof. by destruct n. Qed.

(** With as much fuel as there are registered candidates still ahead, the
    search returns the first free candidate. *)
Lemma _ensure_unique_fuel_spec (registry : gset string) (key : string) :
  ∀ (fuel i : nat) (ahead : gset string),
    (∀ j, (i ≤ j)%nat → candidate key j ∈ registry → candidate key j ∈ ahead) →
    (size ahead ≤ fuel)%nat →
    ∃ n, (i ≤ n)%nat
         ∧ _ensure_unique_fuel fuel registry key (new_key_at key i) i
           = Returned (candidate key n)
         ∧ (candidate key n ∉ registry)
         ∧ ∀ j, (i ≤ j < n)%nat → candidate key j ∈ registry.
Proof.
  induction fuel as [|fuel IH]; intros i ahead Hahead Hsize.
  - exists i. cbn [_ensure_unique_fuel]. rewrite default_new_key_at.
    assert (ahead = ∅) as -> by (apply leibniz_equiv, size_empty_iff; lia).
    case_bool_decide as Hin.
    + apply Hahead in Hin; [|lia]. set_solver.
    + split_and!; [lia | done | done | intros j ?; lia].
  - cbn [_ensure_unique_fuel]. rewrite default_new_key_at.
    case_bool_decide as Hin.
    + destruct (IH (S i) (ahead ∖ {[candidate key i]})) as (n & Hle & Hrun & Hfree & Hbelow).
      * intros j Hj Hreg. apply elem_of_difference. split; [apply Hahead; [lia|done]|].
        intros Heq%elem_of_singleton. apply candidate_inj in Heq. lia.
      * assert (candidate key i ∈ ahead) as Hi by (apply Hahead; [lia|done]).
        rewrite size_difference by set_solver. rewrite size_singleton.
        assert (size ahead ≠ 0); [|lia].
        apply size_non_empty_iff. set_solver.
      * exists n. split_and!; [lia | exact Hrun | done |].
        intros j Hj. destruct (decide (j = i)) as [->|]; [done|]. apply Hbelow. lia.
    + exists i. split_and!; [lia | done | done | intros j ?; lia].
Qed.

(** [_ensure_unique] returns: the depth of its recursion never exceeds the
    size of the registry. *)
Lemma _ensure_unique_returns (registry : gset string) (key : string) :
  ∃ final, _ensure_unique registry key = Returned final ∧ renamed registry key final.
Proof.
  destruct (_ensure_unique_fuel_spec registry key (size registry) 0 registry)
    as (n & _ & Hrun & Hfree & Hbelow); [done | done |].
  exists (candidate key n). split; [exact Hrun|].
  destruct n as [|n].
  - left. done.
  - right. split; [apply (Hbelow 0); lia|].
    exists (S n). split_and!; [lia | done | done |].
    intros [|j] Hj; [lia|]. apply (Hbelow (S j)). lia.
Qed.

Lemma renamed_fresh registry key final : renamed registry key final → final ∉ registry.
Proof. intros [[? ->] | (_ & n & _ & _ & ? & _)]; done. Qed.

Lemma maker_defaults orm T cor key :
  autocommit_handler_maker orm T cor None None key
  = inr (autocommit_handler orm T cor ∅ ∅ key).
Proof. reflexivity. Qed.

Lemma post_init_run orm T self cls :
  ∃ scope_key engine_key maker_key handler,
    __post_init__ orm T self cls
    = Returned
        ({| before_send_handler := handler;
            engine_dependency_key := engine_dependency_key self;
            session_dependency_key := session_dependency_key self;
            engine_app_state_key := engine_key;
            session_maker_app_state_key := maker_key;
            session_scope_key := scope_key;
            set_default_exception_handler := set_default_exception_handler self |},
         {| _SESSION_SCOPE_KEY_REGISTRY := {[scope_key]} ∪ _SESSION_SCOPE_KEY_REGISTRY cls;
            _ENGINE_APP_STATE_KEY_REGISTRY :=
              {[engine_key]} ∪ _ENGINE_APP_STATE_KEY_REGISTRY cls;
            _SESSIONMAKER_APP_STATE_KEY_REGISTRY :=
              {[maker_key]} ∪ _SESSIONMAKER_APP_STATE_KEY_REGISTRY cls |})
    ∧ renamed (_SESSION_SCOPE_KEY_REGISTRY cls) (session_scope_key self) scope_key
    ∧ renamed (_ENGINE_APP_STATE_KEY_REGISTRY cls) (engine_app_state_key self) engine_key
    ∧ renamed (_SESSIONMAKER_APP_STATE_KEY_REGISTRY cls)
        (session_maker_app_state_key self) maker_key.
Proof.
  destruct (_ensure_unique_returns (_SESSION_SCOPE_KEY_REGISTRY cls)
              (session_scope_key self)) as (k1 & Hk1 & Hr1).
  destruct (_ensure_unique_returns (_ENGINE_APP_STATE_KEY_REGISTRY cls)
              (engine_app_state_key self)) as (k2 & Hk2 & Hr2).
  destruct (_ensure_unique_returns (_SESSIONMAKER_APP_STATE_KEY_REGISTRY cls)
              (session_maker_app_state_key self)) as (k3 & Hk3 & Hr3).
  unfold __post_init__. rewrite Hk1, Hk2, Hk3. cbn [and_then].
  exists k1, k2, k3.
  destruct (before_send_handler self) as [|name|h]; cbn [is_literal].
  - eexists. split; [reflexivity|done].
  - destruct (String.eqb name "autocommit") eqn:E1.
    + rewrite maker_defaults. cbn [lift_maker and_then is_literal].
      eexists. split; [reflexivity|done].
    + cbn [and_then is_literal].
      destruct (String.eqb name "autocommit_include_redirects") eqn:E2.
      * rewrite maker_defaults. cbn [lift_maker and_then].
        eexists. split; [reflexivity|done].
      * cbn [and_then]. eexists. split; [reflexivity|done].
  - eexists. split; [reflexivity|done].
Qed.

Section Instances.

Variable orm : Orm.
Variable T : gset string.

(** One of the three keys together with its registry. *)
Variable key_of : SQLAlchemyAsyncConfig → string.
Variable registry_of : Registries → gset string.

Hypothesis post_init_registers :
  ∀ self cls made,
    __post_init__ orm T self cls = Returned made →
    (key_of made.1 ∉ registry_of cls)
    ∧ registry_of made.2 = {[key_of made.1]} ∪ registry_of cls.

Lemma create_instances_distinct requested :
  ∀ cls made,
    create_instances orm T requested cls = Returned made →
    NoDup (key_of <$> made.1)
    ∧ (∀ k, k ∈ key_of <$> made.1 → k ∉ registry_of cls)
    ∧ registry_of made.2 = list_to_set (key_of <$> made.1) ∪ registry_of cls.
Proof.
  induction requested as [|self rest IH]; intros cls made Hrun.
  - injection Hrun as <-. simpl. split_and!; [constructor | set_solver | set_solver].
  - cbn [create_instances] in Hrun.
    destruct (__post_init__ orm T self cls) as [first| |] eqn:Hfirst; try done.
    cbn [and_then] in Hrun.
    destruct (create_instances orm T rest first.2) as [others| |] eqn:Hrest; try done.
    cbn [and_then] in Hrun. injection Hrun as <-. cbn [fst snd fmap list_fmap].
    destruct (post_init_registers self cls first Hfirst) as [Hnew Hreg].
    destruct (IH first.2 others Hrest) as (Hnd & Hfresh & Hall).
    assert (Hnotin : key_of first.1 ∉ key_of <$> others.1).
    { intros Hin. apply Hfresh in Hin. rewrite Hreg in Hin. set_solver. }
    split_and!.
    + by constructor.
    + intros k [->|Hin]%elem_of_cons; [done|].
      apply Hfresh in Hin. rewrite Hreg in Hin. set_solver.
    + rewrite Hall, Hreg. set_solver.
Qed.

End Instances.

Lemma create_instances_returns orm T requested :
  ∀ cls, ∃ made, create_instances orm T requested cls = Returned made
                 ∧ length made.1 = length requested.
Proof.
  induction requested as [|self rest IH]; intros cls.
  - by exists ([], cls).
  - destruct (post_init_run orm T self cls) as (k1 & k2 & k3 & h & Hrun & _).
    cbn [create_instances]. rewrite Hrun. cbn [and_then snd].
    destruct (IH {| _SESSION_SCOPE_KEY_REGISTRY := {[k1]} ∪ _SESSION_SCOPE_KEY_REGISTRY cls;
                    _ENGINE_APP_STATE_KEY_REGISTRY :=
                      {[k2]} ∪ _ENGINE_APP_STATE_KEY_REGISTRY cls;
                    _SESSIONMAKER_APP_STATE_KEY_REGISTRY :=
                      {[k3]} ∪ _SESSIONMAKER_APP_STATE_KEY_REGISTRY cls |})
      as (others & Hothers & Hlen).
    rewrite Hothers. cbn [and_then]. eexists. split; [reflexivity|].
    simpl. by rewrite Hlen.
Qed.

(** C9.  [__post_init__] returns, and for each of [session_scope_key],
    [engine_app_state_key] and [session_maker_app_state_key] the value it
    keeps is the requested one when that is not in the class-level registry,
    and otherwise the requested key followed by [_n] for the least positive
    [n] that is not registered; the value kept is then added to the
    registry.  Hence the keys of instances made one after the other are
    pairwise distinct, and distinct from whatever was registered before. *)
Theorem post_init_keeps_keys_unique (orm : Orm) (T : gset string) :
  (∀ self cls, ∃ made,
     __post_init__ orm T self cls = Returned made
     ∧ renamed (_SESSION_SCOPE_KEY_REGISTRY cls) (session_scope_key self)
         (session_scope_key made.1)
     ∧ renamed (_ENGINE_APP_STATE_KEY_REGISTRY cls) (engine_app_state_key self)
         (engine_app_state_key made.1)
     ∧ renamed (_SESSIONMAKER_APP_STATE_KEY_REGISTRY cls)
         (session_maker_app_state_key self) (session_maker_app_state_key made.1)
     ∧ _SESSION_SCOPE_KEY_REGISTRY made.2
       = {[session_scope_key made.1]} ∪ _SESSION_SCOPE_KEY_REGISTRY cls
     ∧ _ENGINE_APP_STATE_KEY_REGISTRY made.2
       = {[engine_app_state_key made.1]} ∪ _ENGINE_APP_STATE_KEY_REGISTRY cls
     ∧ _SESSIONMAKER_APP_STATE_KEY_REGISTRY made.2
       = {[session_maker_app_state_key made.1]} ∪ _SESSIONMAKER_APP_STATE_KEY_REGISTRY cls)
  ∧ (∀ requested cls, ∃ made,
       create_instances orm T requested cls = Returned made
       ∧ length made.1 = length requested
       ∧ NoDup (session_scope_key <$> made.1)
       ∧ NoDup (engine_app_state_key <$> made.1)
       ∧ NoDup (session_maker_app_state_key <$> made.1)
       ∧ (∀ instance, instance ∈ made.1 →
            (session_scope_key instance ∉ _SESSION_SCOPE_KEY_REGISTRY cls)
            ∧ (engine_app_state_key instance ∉ _ENGINE_APP_STATE_KEY_REGISTRY cls)
            ∧ (session_maker_app_state_key instance
                 ∉ _SESSIONMAKER_APP_STATE_KEY_REGISTRY cls))).
Proof.
  assert (Hone : ∀ self cls made, __post_init__ orm T self cls = Returned made →
            ((session_scope_key made.1 ∉ _SESSION_SCOPE_KEY_REGISTRY cls)
             ∧ _SESSION_SCOPE_KEY_REGISTRY made.2
               = {[session_scope_key made.1]} ∪ _SESSION_SCOPE_KEY_REGISTRY cls)
            ∧ ((engine_app_state_key made.1 ∉ _ENGINE_APP_STATE_KEY_REGISTRY cls)
               ∧ _ENGINE_APP_STATE_KEY_REGISTRY made.2
                 = {[engine_app_state_key made.1]} ∪ _ENGINE_APP_STATE_KEY_REGISTRY cls)
            ∧ ((session_maker_app_state_key made.1
                  ∉ _SESSIONMAKER_APP_STATE_KEY_REGISTRY cls)
               ∧ _SESSIONMAKER_APP_STATE_KEY_REGISTRY made.2
                 = {[session_maker_app_state_key made.1]}
                   ∪ _SESSIONMAKER_APP_STATE_KEY_REGISTRY cls)).
  { intros self cls made Hrun.
    destruct (post_init_run orm T self cls) as (k1 & k2 & k3 & h & Hrun' & H1 & H2 & H3).
    rewrite Hrun' in Hrun. injection Hrun as <-. simpl.
    split_and!; eauto using renamed_fresh. }
  split.
  - intros self cls.
    destruct (post_init_run orm T self cls) as (k1 & k2 & k3 & h & Hrun & H1 & H2 & H3).
    eexists. split; [exact Hrun|]. simpl. split_and!; done.
  - intros requested cls.
    destruct (create_instances_returns orm T requested cls) as (made & Hrun & Hlen).
    exists made. split; [exact Hrun|]. split; [exact Hlen|].
    destruct (create_instances_distinct orm T session_scope_key _SESSION_SCOPE_KEY_REGISTRY
                (λ s c m H, proj1 (Hone s c m H)) requested cls made Hrun)
      as (Hnd1 & Hf1 & _).
    destruct (create_instances_distinct orm T engine_app_state_key
                _ENGINE_APP_STATE_KEY_REGISTRY
                (λ s c m H, proj1 (proj2 (Hone s c m H))) requested cls made Hrun)
      as (Hnd2 & Hf2 & _).
    destruct (create_instances_distinct orm T session_maker_app_state_key
                _SESSIONMAKER_APP_STATE_KEY_REGISTRY
                (λ s c m H, proj2 (proj2 (Hone s c m H))) requested cls made Hrun)
      as (Hnd3 & Hf3 & _).
    split_and!; try done.
    intros instance Hin. split_and!.
    + apply Hf1. by apply list_elem_of_fmap_2.
    + apply Hf2. by apply list_elem_of_fmap_2.
    + apply Hf3. by apply list_elem_of_fmap_2.
Qed.

Example three_default_configs :
  match create_instances orm_ok terminus_events
          [default_config; default_config; default_config] no_registrations with
  | Returned made =>
      (session_scope_key <$> made.1, session_maker_app_state_key <$> made.1)
  | _ => ([], [])
  end
  = (["_sqlalchemy_db_session"; "_sqlalchemy_db_session_1"; "_sqlalchemy_db_session_2"],
     ["session_maker_class"; "session_maker_class_1"; "session_maker_class_2"]).
Proof. vm_compute. reflexivity. Qed.

(** ** Exceptions *)

Lemma size_list_to_set_le (l : list string) :
  (size (list_to_set l : gset string) ≤ length l)%nat.
Proof.
  induction l as [|x l IH].
  - rewrite list_to_set_nil, size_empty. done.
  - rewrite list_to_set_cons, length_cons, size_union_alt, size_singleton.
    assert (list_to_set l ∖ {[x]} ⊆ (list_to_set l : gset string)) as Hsub
      by set_solver.
    apply subseteq_size in Hsub. lia.
Qed.

Lemma size_list_to_set_NoDup (l : list string) :
  size (list_to_set l : gset string) = length l ↔ NoDup l.
Proof.
  split; [|apply size_list_to_set].
  induction l as [|x l IH]; intros Hsize; [constructor|].
  rewrite list_to_set_cons, length_cons in Hsize.
  pose proof (size_list_to_set_le l) as Hle.
  destruct (decide (x ∈ l)) as [Hin|Hnotin].
  - assert ({[x]} ∪ list_to_set l = (list_to_set l : gset string)) as Heq by set_solver.
    rewrite Heq in Hsize. lia.
  - constructor; [done|]. apply IH.
    rewrite size_union, size_singleton in Hsize by set_solver. lia.
Qed.

Lemma validate_config_raises_iff (self : PluginConfig) :
  let configs := plugin_configs self in
  let duplicates :=
    1 < length configs
    ∧ ¬ (NoDup (session_scope_key <$> configs)
         ∧ NoDup (engine_dependency_key <$> configs)
         ∧ NoDup (session_dependency_key <$> configs)) in
  (duplicates →
   _validate_config self = inl (ImproperConfigurationError improper_configuration_detail))
  ∧ (¬ duplicates → _validate_config self = inr tt).
Proof.
  intros configs duplicates. unfold _validate_config. fold configs.
  assert (Hsz : ∀ f : SQLAlchemyAsyncConfig → string,
            bool_decide (size (list_to_set (f <$> configs) : gset string) ≠ length configs)
            = true ↔ ¬ NoDup (f <$> configs)).
  { intros f. rewrite bool_decide_eq_true, <- size_list_to_set_NoDup, length_fmap. done. }
  cbn [existsb]. rewrite orb_false_r.
  destruct (bool_decide (1 < length configs)) eqn:Hlen; cbn [andb].
  - apply bool_decide_eq_true in Hlen.
    destruct (_ || _) eqn:Hany.
    + split; [done|]. intros Hno. destruct Hno. split; [done|].
      apply orb_true_iff in Hany as [Hany|Hany]; [|apply orb_true_iff in Hany as [Hany|Hany]];
        apply Hsz in Hany; tauto.
    + split; [|done]. intros [_ Hdup]. destruct Hdup.
      apply orb_false_iff in Hany as [H1 Hany]. apply orb_false_iff in Hany as [H2 H3].
      split_and!; apply dec_stable; intros Hn; apply Hsz in Hn; congruence.
  - apply bool_decide_eq_false in Hlen. split; [|done]. intros [? _]. done.
Qed.

Lemma validate_config_only_improper (self : PluginConfig) e :
  _validate_config self = inl e →
  e = ImproperConfigurationError improper_configuration_detail.
Proof.
  unfold _validate_config. destruct (_ && _); congruence.
Qed.

Lemma cleanup_result_raised orm T session message e :
  cleanup_result orm T session message = inl e →
  ∃ s, session = Some s ∧ msg_type message ∈ T ∧ close_result orm s = Some e.
Proof.
  unfold cleanup_result. destruct session as [s|]; [|done].
  destruct (is_terminus T message) eqn:HT; [|done].
  destruct (close_result orm s) eqn:Hc; [|done].
  intros [= <-]. exists s. by rewrite <- is_terminus_spec.
Qed.

Lemma decision_result_raised orm cor ecs ers session message e :
  decision_result orm cor ecs ers session message = inl e →
  ∃ s, session = Some s ∧ (commit_result orm s = Some e ∨ rollback_result orm s = Some e).
Proof.
  unfold decision_result. destruct session as [s|]; [|done].
  destruct (String.eqb _ _); [|done].
  destruct (should_commit _ _ _ _).
  - destruct (commit_result orm s) eqn:Hc; [|done]. intros [= <-]. eauto.
  - destruct (rollback_result orm s) eqn:Hc; [|done]. intros [= <-]. eauto.
Qed.

(** C7, as the spec has it, fails: the plugin given two configs with the
    default dependency keys raises [ImproperConfigurationError], an exception
    of the repository's own hierarchy, from [_validate_config] and hence from
    [on_app_init]. *)
Lemma validation_raises_repository_exception :
  _validate_config
    (Sequence [default_config;
               mkConfig BSNone "db_engine" "db_session" "db_engine_1"
                 "session_maker_class_1" "_sqlalchemy_db_session_1" true])
  = inl (ImproperConfigurationError improper_configuration_detail)
  ∧ repository_defined (ImproperConfigurationError improper_configuration_detail) = true
  ∧ orm_raised (ImproperConfigurationError improper_configuration_detail) = false
  ∧ on_app_init
      (Sequence [default_config;
                 mkConfig BSNone "db_engine" "db_session" "db_engine_1"
                   "session_maker_class_1" "_sqlalchemy_db_session_1" true])
      (mkAppConfig [] ∅ [] [])
    = inl (ImproperConfigurationError improper_configuration_detail).
Proof. split_and!; reflexivity. Qed.

(** C7, amended.  The before-send handler makers raise no exception of the
    repository's own: [autocommit_handler_maker] raises nothing but the
    builtin [ValueError], and what the handlers raise is what a call on the
    stored session raised.  Configuration validation does raise the
    repository's own [ImproperConfigurationError], and nothing else: exactly
    when there is more than one config and the values of [session_scope_key],
    of [engine_dependency_key] or of [session_dependency_key] are not
    pairwise distinct; [on_app_init] raises exactly what validation
    raises. *)
Theorem repository_exceptions_only_from_validation :
  (∀ orm T cor ecs ers key e,
     autocommit_handler_maker orm T cor ecs ers key = inl e →
     repository_defined e = false ∧ ∃ msg, e = ValueError msg)
  ∧ (∀ orm T key message w e,
       (default_handler_maker orm T key message w).1 = inl e →
       ∃ s, scope w !! key = Some s ∧ close_result orm s = Some e)
  ∧ (∀ orm T cor ecs ers key message w e,
       (autocommit_handler orm T cor ecs ers key message w).1 = inl e →
       ∃ s, scope w !! key = Some s
            ∧ (commit_result orm s = Some e ∨ rollback_result orm s = Some e
               ∨ close_result orm s = Some e))
  ∧ (∀ self,
       let configs := plugin_configs self in
       let duplicates :=
         1 < length configs
         ∧ ¬ (NoDup (session_scope_key <$> configs)
              ∧ NoDup (engine_dependency_key <$> configs)
              ∧ NoDup (session_dependency_key <$> configs)) in
       (duplicates →
        _validate_config self
        = inl (ImproperConfigurationError improper_configuration_detail))
       ∧ (¬ duplicates → _validate_config self = inr tt))
  ∧ (∀ self app_config e,
       on_app_init self app_config = inl e ↔ _validate_config self = inl e).
Proof.
  split_and!.
  - intros orm T cor ecs ers key e. unfold autocommit_handler_maker.
    case_bool_decide; [|done]. intros [= <-]. eauto.
  - intros orm T key message w e. rewrite default_handler_run. simpl.
    intros (s & ? & _ & ?)%cleanup_result_raised. eauto.
  - intros orm T cor ecs ers key message w e. rewrite autocommit_handler_run. simpl.
    destruct (cleanup_result orm T (scope w !! key) message) as [e'|[]] eqn:Hcl.
    + intros [= ->]. apply cleanup_result_raised in Hcl as (s & ? & _ & ?). eauto 6.
    + intros (s & ? & [?|?])%decision_result_raised; eauto 6.
  - apply validate_config_raises_iff.
  - intros self app_config e. unfold on_app_init.
    destruct (_validate_config self) as [e'|[]]; [split; congruence|].
    destruct (fold_left _ _ _) as [flag app]. destruct (_ && _); split; discriminate.
Qed.

(** ** The dependency cache *)

(** C4.  [create_filter_dependencies] is a cache keyed by the filter
    configuration.  When the cache holds an entry under the key of the
    configuration, that entry is returned and the cache is left as it was:
    nothing is built, nothing stored.  Otherwise the map is built by
    [_create_statement_filters], stored under the key of the configuration
    and returned; a second call then finds it. *)
Theorem create_filter_dependencies_caches {Deps Defaults : Type}
    (cache_key : FilterConfig → Z)
    (_create_statement_filters : FilterConfig → Defaults → Deps)
    (config : FilterConfig) (dep_defaults : Defaults) (dep_cache : DependencyCache) :
  let run := create_filter_dependencies cache_key _create_statement_filters
               config dep_defaults dep_cache in
  (∀ deps, get_dependencies (cache_key config) dep_cache = Some deps →
     run = (deps, dep_cache))
  ∧ (get_dependencies (cache_key config) dep_cache = None →
       run.1 = _create_statement_filters config dep_defaults
       ∧ dependencies_of run.2
         = <[cache_key config := _create_statement_filters config dep_defaults]>
             (dependencies_of dep_cache)
       ∧ cache_log run.2
         = cache_log dep_cache ++ [Built config; Stored (cache_key config)])
  ∧ create_filter_dependencies cache_key _create_statement_filters
      config dep_defaults run.2
    = run.
Proof.
  intros run. unfold run, create_filter_dependencies.
  destruct (get_dependencies (cache_key config) dep_cache) as [deps|] eqn:Hget.
  - split_and!.
    + by intros ? [= <-].
    + done.
    + simpl. by rewrite Hget.
  - split_and!.
    + done.
    + intros _. simpl. split_and!; [done | done |]. by rewrite <- app_assoc.
    + simpl. unfold get_dependencies. simpl. by rewrite lookup_insert_eq.
Qed.

(** The test [test_add_get_dependencies]: what was added is found, what was
    not is [None]. *)
Lemma get_add_dependencies {Deps : Type} (key key' : Z) (deps : Deps)
    (dep_cache : DependencyCache) :
  get_dependencies key' (add_dependencies key deps dep_cache)
  = if decide (key = key') then Some deps else get_dependencies key' dep_cache.
Proof. unfold get_dependencies, add_dependencies. simpl. apply lookup_insert. Qed.

(** ** The aggregate function *)

Lemma aggregate_fold kwargs : ∀ filters,
  fold_left aggregate_step kwargs filters
  = filters ++ List.filter valid_filter (omap snd kwargs).
Proof.
  induction kwargs as [|[name [f|]] kwargs IH]; intros filters; simpl.
  - by rewrite app_nil_r.
  - rewrite IH. unfold aggregate_step. simpl.
    destruct (valid_filter f); [by rewrite <- app_assoc | done].
  - by rewrite IH.
Qed.

Lemma valid_filter_spec f :
  valid_filter f = true
  ↔ (∀ field_name ignore_case, f ≠ SearchFilter field_name None ignore_case)
    ∧ (∀ sort_order, f ≠ OrderBy None sort_order).
Proof.
  split.
  - intros Hv. split; intros; intros ->; discriminate.
  - intros [Hs Ho]. destruct f as [| | |fn [v|] ic| |[fn|] so]; try done.
    + by destruct (Hs fn ic).
    + by destruct (Ho so).
Qed.

Lemma elem_of_aggregate_parameters config name :
  name ∈ aggregate_parameters config
  ↔ (name = "id_filter" ∧ is_Some (id_filter config))
    ∨ (name = "created_filter" ∧ created_at config = true)
    ∨ (name = "updated_filter" ∧ updated_at config = true)
    ∨ (name = "search_filter" ∧ is_Some (search config))
    ∨ (name = "limit_offset_filter" ∧ pagination_type config = Some "limit_offset")
    ∨ (name = "order_by_filter" ∧ is_Some (sort_field config))
    ∨ (∃ field, field ∈ not_in_fields config ∧ name = field +:+ "_not_in_filter")
    ∨ (∃ field, field ∈ in_fields config ∧ name = field +:+ "_in_filter").
Proof.
  unfold aggregate_parameters. rewrite !elem_of_app, !list_elem_of_fmap.
  assert (Hopt : ∀ (o : option string) (p : string),
            name ∈ (if configured o then [p] else []) ↔ name = p ∧ is_Some o).
  { intros [x|] p; simpl; rewrite ?list_elem_of_singleton, ?elem_of_nil;
      [|rewrite is_Some_alt]; naive_solver. }
  assert (Hbool : ∀ (b : bool) (p : string),
            name ∈ (if b then [p] else []) ↔ name = p ∧ b = true).
  { intros [|] p; rewrite ?list_elem_of_singleton, ?elem_of_nil; naive_solver. }
  rewrite !Hopt, !Hbool.
  rewrite bool_decide_eq_true. naive_solver.
Qed.

(** C5.  The function made by [_create_filter_aggregate_function] has one
    keyword parameter per configured filter: [id_filter], [created_filter],
    [updated_filter], [search_filter], [limit_offset_filter],
    [order_by_filter], and [<field>_not_in_filter] and [<field>_in_filter]
    for each listed field.  Called, it returns exactly the passed filters
    that are valid, in the order passed: an argument that is [None], a
    [SearchFilter] whose value is [None] and an [OrderBy] whose field name is
    [None] are left out, every other passed filter is in the list. *)
Theorem aggregate_function_returns_valid_filters (config : FilterConfig)
    (kwargs : list (string * option Filter)) :
  let aggregate := _create_filter_aggregate_function config in
  (∀ name, name ∈ parameters aggregate
     ↔ (name = "id_filter" ∧ is_Some (id_filter config))
       ∨ (name = "created_filter" ∧ created_at config = true)
       ∨ (name = "updated_filter" ∧ updated_at config = true)
       ∨ (name = "search_filter" ∧ is_Some (search config))
       ∨ (name = "limit_offset_filter" ∧ pagination_type config = Some "limit_offset")
       ∨ (name = "order_by_filter" ∧ is_Some (sort_field config))
       ∨ (∃ field, field ∈ not_in_fields config ∧ name = field +:+ "_not_in_filter")
       ∨ (∃ field, field ∈ in_fields config ∧ name = field +:+ "_in_filter"))
  ∧ call aggregate kwargs = List.filter valid_filter (omap snd kwargs)
  ∧ (∀ f, f ∈ call aggregate kwargs
       ↔ (∃ name, (name, Some f) ∈ kwargs)
         ∧ (∀ field_name ignore_case, f ≠ SearchFilter field_name None ignore_case)
         ∧ (∀ sort_order, f ≠ OrderBy None sort_order)).
Proof.
  intros aggregate. unfold aggregate. simpl. split_and!.
  - apply elem_of_aggregate_parameters.
  - apply aggregate_fold.
  - intros f. rewrite aggregate_fold. simpl.
    rewrite list_elem_of_In, filter_In, <- list_elem_of_In, valid_filter_spec.
    rewrite list_elem_of_omap. split.
    + intros [([name o] & Hin & Ho) Hv]. simpl in Ho. subst o. split; [by exists name|done].
    + intros [[name Hin] Hv]. split; [|done]. by exists (name, Some f).
Qed.

(** The calls of [test_multiple_filters_aggregation] and
    [test_search_filter_aggregation]. *)
Example multiple_filters_aggregation :
  let aggregate :=
    _create_filter_aggregate_function
      (mkFilterConfig (Some "int") None true true (Some "name") false
         (Some "limit_offset") None (Some "name") None ["status"] ["tag"]) in
  parameters aggregate
  = ["id_filter"; "created_filter"; "updated_filter"; "search_filter";
     "limit_offset_filter"; "order_by_filter"; "status_not_in_filter"; "tag_in_filter"]
  ∧ length (call aggregate
              [("id_filter", Some (CollectionFilter "id" ["1"]));
               ("created_filter", Some (BeforeAfter "created_at" None None));
               ("updated_filter", Some (BeforeAfter "updated_at" None None));
               ("search_filter", Some (SearchFilter "name" (Some "test") false));
               ("limit_offset_filter", Some (LimitOffset 10 0));
               ("order_by_filter", Some (OrderBy (Some "name") "asc"));
               ("status_not_in_filter", Some (NotInCollectionFilter "status" ["x"]));
               ("tag_in_filter", Some (CollectionFilter "tag" ["y"]))]) = 8
  ∧ call aggregate [("search_filter", Some (SearchFilter "name" None false));
                    ("order_by_filter", Some (OrderBy None "asc"));
                    ("tag_in_filter", None)] = [].
Proof. split_and!; reflexivity. Qed.

(** * Further properties *)

(** ** Application state, engines and session makers *)

(** X1.  [provide_session] raises exactly when the scope holds no session
    and the application state has nothing under
    [session_maker_app_state_key]; it then raises [KeyError] for that key
    and leaves scope, trace and context flag as they were.  When it
    returns, the session returned is the one now stored in the scope and
    the context flag is set. *)
Theorem provide_session_raises_iff (self : SQLAlchemyAsyncConfig)
    (state : gmap string nat) (w : World) :
  let run := provide_session self state w in
  ((∃ e, run.1 = inl e)
   ↔ scope w !! session_scope_key self = None
     ∧ state !! session_maker_app_state_key self = None)
  ∧ (∀ e, run.1 = inl e →
       e = KeyError (session_maker_app_state_key self) ∧ run.2 = w)
  ∧ (∀ s, run.1 = inr s →
       scope run.2 !! session_scope_key self = Some s
       ∧ async_context run.2 = true).
Proof.
  intros run. unfold run.
  destruct (scope w !! session_scope_key self) as [s|] eqn:Hs.
  - rewrite (provide_session_cached self state w s Hs). simpl. split_and!.
    + split; [intros [e ?]; done | intros [? _]; done].
    + done.
    + intros ? [= <-]. done.
  - destruct (state !! session_maker_app_state_key self) as [maker|] eqn:Hm.
    + rewrite (provide_session_created self state w maker Hs Hm). simpl. split_and!.
      * split; [intros [e ?]; done | intros [_ ?]; done].
      * done.
      * intros ? [= <-]. split; [apply lookup_insert_eq | done].
    + rewrite (provide_session_no_maker self state w Hs Hm). simpl. split_and!.
      * split; eauto.
      * intros ? [= <-]. done.
      * done.
Qed.

Lemma lookup_create_app_state_items self engine maker key :
  create_app_state_items self engine maker !! key
  = if decide (session_maker_app_state_key self = key) then Some maker
    else if decide (engine_app_state_key self = key) then Some engine
    else None.
Proof.
  unfold create_app_state_items. rewrite lookup_insert. case_decide; [done|].
  rewrite lookup_insert. case_decide; [done|]. apply lookup_empty.
Qed.

Lemma lookup_update_app_state self engine maker state key :
  update_app_state self engine maker state !! key
  = if decide (session_maker_app_state_key self = key) then Some maker
    else if decide (engine_app_state_key self = key) then Some engine
    else state !! key.
Proof.
  unfold update_app_state. rewrite lookup_union, lookup_create_app_state_items.
  repeat case_decide; destruct (state !! key); reflexivity.
Qed.

(** X2.  Once a config has updated the application state, its
    [provide_session] finds the config's own session maker, whatever the
    state held before and even if both state keys are the same: on a scope
    without a session the call invokes that maker, once, and returns the
    new session. *)
Theorem provide_session_after_update (self : SQLAlchemyAsyncConfig)
    (engine maker : nat) (state : gmap string nat) (w : World) :
  scope w !! session_scope_key self = None →
  (provide_session self (update_app_state self engine maker state) w).1
    = inr (next_session w)
  ∧ performed (provide_session self (update_app_state self engine maker state)) w
    = [EMake maker (next_session w)].
Proof.
  intros Hs.
  assert (Hm : update_app_state self engine maker state
                 !! session_maker_app_state_key self = Some maker).
  { rewrite lookup_update_app_state. by case_decide. }
  split.
  - by rewrite (provide_session_created self _ w maker Hs Hm).
  - apply performed_app. by rewrite (provide_session_created self _ w maker Hs Hm).
Qed.

Lemma provide_session_after_update_witness :
  scope world0 !! session_scope_key default_config = None
  ∧ (provide_session default_config
       (update_app_state default_config 1 2 {[ "session_maker_class" := 9 ]}) world0).1
    = inr 0.
Proof.
  assert (Hs : scope world0 !! session_scope_key default_config = None) by reflexivity.
  split; [exact Hs|].
  exact (proj1 (provide_session_after_update default_config 1 2
                  {[ "session_maker_class" := 9 ]} world0 Hs)).
Defined.

(** X3.  [provide_engine] never raises: a state without the key gives
    [None].  After the config has updated the state it gives the config's
    engine, unless [engine_app_state_key] and [session_maker_app_state_key]
    are the same key, in which case it gives the session maker. *)
Theorem provide_engine_after_update (self : SQLAlchemyAsyncConfig)
    (engine maker : nat) (state : gmap string nat) :
  (state !! engine_app_state_key self = None → provide_engine self state = None)
  ∧ (engine_app_state_key self ≠ session_maker_app_state_key self →
       provide_engine self (update_app_state self engine maker state) = Some engine)
  ∧ (engine_app_state_key self = session_maker_app_state_key self →
       provide_engine self (update_app_state self engine maker state) = Some maker).
Proof.
  unfold provide_engine. rewrite lookup_update_app_state. split_and!.
  - done.
  - intros Hne. repeat case_decide; congruence.
  - intros Heq. repeat case_decide; congruence.
Qed.

Lemma update_all_other configs : ∀ state key,
  key ∉ state_keys configs → update_all configs state !! key = state !! key.
Proof.
  induction configs as [|[[c e] m] configs IH]; intros state key Hkey; [done|].
  unfold update_all in *. cbn [fold_left]. simpl in Hkey.
  rewrite IH by set_solver. simpl.
  rewrite lookup_update_app_state. repeat case_decide; set_solver.
Qed.

(** X4.  When the configs of an application use pairwise distinct
    application-state keys (engine keys and session-maker keys together),
    the updates of all of them lose nothing: every config finds its own
    engine and its own session maker in the final state, and keys of no
    config keep what they held. *)
Theorem update_all_lossless (configs : list (SQLAlchemyAsyncConfig * nat * nat))
    (state : gmap string nat) :
  NoDup (state_keys configs) →
  (∀ c engine maker, (c, engine, maker) ∈ configs →
     provide_engine c (update_all configs state) = Some engine
     ∧ update_all configs state !! session_maker_app_state_key c = Some maker)
  ∧ (∀ key, key ∉ state_keys configs → update_all configs state !! key = state !! key).
Proof.
  intros Hnd. split; [|intros key; apply update_all_other].
  revert state Hnd.
  induction configs as [|[[c0 e0] m0] configs IH]; intros state Hnd c engine maker Hin.
  - by apply elem_of_nil in Hin.
  - simpl in Hnd. apply NoDup_cons in Hnd as [Hk1 Hnd]. apply NoDup_cons in Hnd as [Hk2 Hnd].
    apply elem_of_cons in Hin as [Heq|Hin].
    + injection Heq as -> -> ->. unfold provide_engine, update_all. cbn [fold_left].
      fold (update_all configs (update_app_state c0 e0 m0 state)).
      rewrite !update_all_other by set_solver. simpl.
      rewrite !lookup_update_app_state.
      split; repeat case_decide; try done. set_solver.
    + unfold update_all. cbn [fold_left]. apply (IH _ Hnd _ _ _ Hin).
Qed.

Lemma update_all_lossless_witness :
  NoDup (state_keys
           [(default_config, 1, 2);
            (mkConfig BSNone "db_engine" "db_session" "db_engine_1"
               "session_maker_class_1" "_sqlalchemy_db_session_1" true, 3, 4)])
  ∧ provide_engine default_config
      (update_all
         [(default_config, 1, 2);
          (mkConfig BSNone "db_engine" "db_session" "db_engine_1"
             "session_maker_class_1" "_sqlalchemy_db_session_1" true, 3, 4)] ∅)
    = Some 1.
Proof.
  assert (Hnd : NoDup (state_keys
                  [(default_config, 1, 2);
                   (mkConfig BSNone "db_engine" "db_session" "db_engine_1"
                      "session_maker_class_1" "_sqlalchemy_db_session_1" true, 3, 4)])).
  { simpl. repeat (constructor; [set_solver|]). constructor. }
  split; [exact Hnd|].
  apply (proj1 (update_all_lossless _ ∅ Hnd)) with (maker := 2).
  apply elem_of_cons. by left.
Defined.

(** ** [lifespan] *)

Section LifespanFacts.

Variable has_dispose : nat → bool.
Variable dispose_result : nat → option exn.
Variable create_all_result : option exn.
Variable self : SQLAlchemyAsyncConfig.
Variable create_all : bool.
Variable engine maker : nat.
Variable body : gmap string nat → option exn * gmap string nat.

Let deps := create_app_state_items self engine maker.

(** The object [lifespan] disposes on exit, if any. *)
Let target : option nat :=
  match deps !! engine_dependency_key self with
  | Some o => if has_dispose o then Some o else None
  | None => None
  end.

(** What happens before the [finally] block. *)
Let entered : option exn := if create_all then create_all_result else None.

Lemma lifespan_run a :
  AsyncConfig.lifespan has_dispose dispose_result create_all_result
    self create_all engine maker body a
  = (match target ≫= dispose_result with
     | Some e => inl e
     | None =>
         match entered with
         | Some e => inl e
         | None => match (body (deps ∪ app_state a)).1 with
                   | Some e => inl e
                   | None => inr tt
                   end
         end
     end,
     {| app_state := match entered with
                     | Some _ => deps ∪ app_state a
                     | None => (body (deps ∪ app_state a)).2
                     end;
        app_calls := app_calls a
                     ++ (if create_all then [ACreateAll] else [])
                     ++ match target with Some o => [ADispose o] | None => [] end |}).
Proof.
  unfold AsyncConfig.lifespan, mbind, AppM_bind, app_bind, app_try_finally,
    app_state_update, app_run, app_await, app_ret.
  cbn beta iota zeta. fold deps. unfold target, entered.
  destruct create_all; cbn [app_state app_calls fst snd].
  - destruct create_all_result as [e1|]; cbn [app_state app_calls fst snd];
      destruct (deps !! engine_dependency_key self) as [o|];
      try destruct (has_dispose o); cbn [mbind option_bind app_state app_calls fst snd];
      try destruct (dispose_result o);
      try destruct (body (deps ∪ app_state a)).1;
      rewrite <- ?app_assoc, ?app_nil_r; reflexivity.
  - destruct (deps !! engine_dependency_key self) as [o|];
      try destruct (has_dispose o); cbn [mbind option_bind app_state app_calls fst snd];
      try destruct (dispose_result o);
      try destruct (body (deps ∪ app_state a)).1;
      rewrite ?app_nil_r; reflexivity.
Qed.

Lemma lifespan_calls a :
  app_performed (AsyncConfig.lifespan has_dispose dispose_result create_all_result
                   self create_all engine maker body) a
  = (if create_all then [ACreateAll] else [])
    ++ match target with Some o => [ADispose o] | None => [] end.
Proof. unfold app_performed. rewrite lifespan_run. simpl. by rewrite drop_app_length. Qed.

Lemma lifespan_disposed o a :
  ADispose o ∈ app_performed
                 (AsyncConfig.lifespan has_dispose dispose_result create_all_result
                    self create_all engine maker body) a
  ↔ target = Some o.
Proof.
  rewrite lifespan_calls. destruct create_all, target as [o'|]; set_solver.
Qed.

Lemma lifespan_target o :
  target = Some o
  ↔ has_dispose o = true
    ∧ ((session_maker_app_state_key self = engine_dependency_key self ∧ o = maker)
       ∨ (session_maker_app_state_key self ≠ engine_dependency_key self
          ∧ engine_app_state_key self = engine_dependency_key self ∧ o = engine)).
Proof.
  unfold target, deps. rewrite lookup_create_app_state_items.
  repeat case_decide.
  - destruct (has_dispose maker) eqn:Hd; split.
    + intros [= <-]. eauto.
    + intros [? [[_ ->]|[? _]]]; done.
    + done.
    + intros [? [[_ ->]|[? _]]]; congruence.
  - destruct (has_dispose engine) eqn:Hd; split.
    + intros [= <-]. eauto 6.
    + intros [? [[? _]|(_ & _ & ->)]]; done.
    + done.
    + intros [? [[? _]|(_ & _ & ->)]]; congruence.
  - split; [done|]. intros [? [[? _]|(_ & ? & _)]]; done.
Qed.

End LifespanFacts.

(** X5.  On exit [lifespan] disposes what the items it stored hold under
    [engine_dependency_key], not under [engine_app_state_key].  The engine
    (an object other than the session maker) is disposed if and only if it
    has a [dispose] attribute, [engine_dependency_key] equals
    [engine_app_state_key], and that key is not also the session-maker key;
    nothing else is ever disposed unless the session maker sits under
    [engine_dependency_key].  This holds whatever [create_all_metadata] and
    the application do, raising included. *)
Theorem lifespan_disposes_iff (has_dispose : nat → bool)
    (dispose_result : nat → option exn) (create_all_result : option exn)
    (self : SQLAlchemyAsyncConfig) (create_all : bool) (engine maker : nat)
    (body : gmap string nat → option exn * gmap string nat) (a : App) :
  engine ≠ maker →
  let calls := app_performed
                 (AsyncConfig.lifespan has_dispose dispose_result create_all_result
                    self create_all engine maker body) a in
  (ADispose engine ∈ calls
   ↔ has_dispose engine = true
     ∧ engine_dependency_key self = engine_app_state_key self
     ∧ engine_app_state_key self ≠ session_maker_app_state_key self)
  ∧ (∀ o, ADispose o ∈ calls → o = engine ∨ o = maker)
  ∧ (engine_dependency_key self ≠ engine_app_state_key self →
     engine_dependency_key self ≠ session_maker_app_state_key self →
     ∀ o, ADispose o ∉ calls).
Proof.
  intros Hne calls. unfold calls. split_and!.
  - rewrite lifespan_disposed, lifespan_target. split.
    + intros [Hd [[_ ?]|(Hk & Heq & _)]]; [done|]. split_and!; congruence.
    + intros (Hd & Heq & Hk). split; [done|]. right. split_and!; congruence.
  - intros o. rewrite lifespan_disposed, lifespan_target.
    intros [_ [[_ ->]|(_ & _ & ->)]]; eauto.
  - intros H1 H2 o. rewrite lifespan_disposed, lifespan_target.
    intros [_ [[? _]|(_ & ? & _)]]; congruence.
Qed.

Lemma lifespan_disposes_iff_witness :
  1 ≠ 2
  ∧ (ADispose 1 ∈ app_performed
                    (AsyncConfig.lifespan (λ o, bool_decide (o = 1)) (λ _, None) None
                       default_config true 1 2 (λ st, (Some (OrmError 5), st)))
                    (mkApp ∅ [])
     ↔ bool_decide (1 = 1) = true
       ∧ engine_dependency_key default_config = engine_app_state_key default_config
       ∧ engine_app_state_key default_config
         ≠ session_maker_app_state_key default_config).
Proof.
  assert (Hne : 1 ≠ 2) by lia.
  split; [exact Hne|].
  exact (proj1 (lifespan_disposes_iff (λ o, bool_decide (o = 1)) (λ _, None) None
                  default_config true 1 2 (λ st, (Some (OrmError 5), st))
                  (mkApp ∅ []) Hne)).
Defined.

(** X6.  [lifespan] stores the config's items in the application state
    before anything else.  The disposal of the [finally] block takes place
    in every case, also when [create_all_metadata] or the application
    raises: what sits under [engine_dependency_key] in the items and has a
    [dispose] attribute is disposed, as the last call.  When
    [create_all_metadata] raises, the application does not run; an
    exception of [dispose] replaces the one raised before it; otherwise the
    first exception raised is the one that leaves [lifespan], and without
    any the call returns. *)
Theorem lifespan_exceptions (has_dispose : nat → bool)
    (dispose_result : nat → option exn) (create_all_result : option exn)
    (self : SQLAlchemyAsyncConfig) (create_all : bool) (engine maker : nat)
    (body : gmap string nat → option exn * gmap string nat) (a : App) :
  let run := AsyncConfig.lifespan has_dispose dispose_result create_all_result
               self create_all engine maker body a in
  let calls := app_performed
                 (AsyncConfig.lifespan has_dispose dispose_result
                    create_all_result self create_all engine maker body) a in
  let stored := update_app_state self engine maker (app_state a) in
  let due o := create_app_state_items self engine maker !! engine_dependency_key self
               = Some o ∧ has_dispose o = true in
  let disposed o := ADispose o ∈ calls in
  (∀ o, disposed o ↔ due o)
  ∧ (∀ o, due o → ∃ before, calls = before ++ [ADispose o]
                            ∧ ∀ o', ADispose o' ∉ before)
  ∧ (∀ o e, disposed o → dispose_result o = Some e → run.1 = inl e)
  ∧ (∀ e, create_all = true → create_all_result = Some e →
       app_state run.2 = stored
       ∧ (∀ o, due o → calls = [ACreateAll; ADispose o])
       ∧ ((∀ o, disposed o → dispose_result o = None) → run.1 = inl e))
  ∧ ((create_all = true → create_all_result = None) →
       app_state run.2 = (body stored).2
       ∧ ((∀ o, disposed o → dispose_result o = None) →
          run.1 = match (body stored).1 with Some e => inl e | None => inr tt end)).
Proof.
  intros run calls stored due disposed.
  unfold run, disposed, calls, due, stored, update_app_state.
  rewrite lifespan_calls, lifespan_run. cbn [fst snd app_state].
  set (deps := create_app_state_items self engine maker).
  set (target := match deps !! engine_dependency_key self with
                 | Some o => if has_dispose o then Some o else None
                 | None => None
                 end).
  assert (Hdue : ∀ o, target = Some o
                      ↔ deps !! engine_dependency_key self = Some o ∧ has_dispose o = true).
  { intros o. unfold target. destruct (deps !! engine_dependency_key self) as [o'|].
    - destruct (has_dispose o') eqn:Hd; split.
      + intros [= <-]. done.
      + intros [[= <-] _]. done.
      + done.
      + intros [[= <-] ?]. congruence.
    - split; [done|]. intros [? _]. done. }
  assert (Hdisp : ∀ o, ADispose o ∈ (if create_all then [ACreateAll] else [])
                                    ++ match target with
                                       | Some o => [ADispose o]
                                       | None => []
                                       end
                       ↔ target = Some o).
  { intros o. destruct create_all, target as [o'|]; set_solver. }
  assert (Hquiet : (∀ o, ADispose o ∈ (if create_all then [ACreateAll] else [])
                                      ++ match target with
                                         | Some o => [ADispose o]
                                         | None => []
                                         end → dispose_result o = None)
                   → target ≫= dispose_result = None).
  { intros Hq. destruct target as [o|] eqn:Ht; [|done]. simpl. apply Hq. by apply Hdisp. }
  split_and!.
  - intros o. by rewrite Hdisp, Hdue.
  - intros o Ho. apply Hdue in Ho. rewrite Ho.
    exists (if create_all then [ACreateAll] else []). split; [done|].
    intros o'. destruct create_all; set_solver.
  - intros o e Hin He. apply Hdisp in Hin. rewrite Hin. simpl. by rewrite He.
  - intros e -> ->. split_and!; [done | |].
    + intros o Ho. apply Hdue in Ho. by rewrite Ho.
    + intros Hq. by rewrite (Hquiet Hq).
  - intros Hok.
    assert ((if create_all then create_all_result else None) = None) as ->
      by (destruct create_all; auto).
    split; [done|]. intros Hq. by rewrite (Hquiet Hq).
Qed.

Lemma renamed_taken_ne registry key final :
  key ∈ registry → renamed registry key final → final ≠ key.
Proof.
  intros Hin [[Hfree _]|(_ & n & Hn & -> & _)]; [done|].
  unfold suffixed. intros Heq. symmetry in Heq.
  by apply append_nonempty_ne in Heq.
Qed.

(** X7.  An instance whose [engine_app_state_key] was already registered is
    given a suffixed key, while its [engine_dependency_key] stays as it
    was.  If the two were equal before (as they are by default), the items
    of the instance no longer hold anything under [engine_dependency_key],
    and its [lifespan] disposes nothing on exit (the session-maker key
    being another key). *)
Theorem renamed_engine_not_disposed (orm : Orm) (T : gset string)
    (has_dispose : nat → bool) (dispose_result : nat → option exn)
    (create_all_result : option exn)
    (self : SQLAlchemyAsyncConfig) (cls : Registries)
    (made : SQLAlchemyAsyncConfig * Registries)
    (create_all : bool) (engine maker : nat)
    (body : gmap string nat → option exn * gmap string nat) (a : App) :
  __post_init__ orm T self cls = Returned made →
  engine_app_state_key self ∈ _ENGINE_APP_STATE_KEY_REGISTRY cls →
  engine_dependency_key self = engine_app_state_key self →
  engine_dependency_key self ≠ session_maker_app_state_key made.1 →
  engine_app_state_key made.1 ≠ engine_dependency_key made.1
  ∧ ∀ o, ADispose o ∉ app_performed
                        (AsyncConfig.lifespan has_dispose dispose_result
                           create_all_result made.1 create_all engine maker body) a.
Proof.
  intros Hrun Hreg Hsame Hmaker.
  destruct (post_init_run orm T self cls) as (k1 & k2 & k3 & h & Hrun' & _ & Hren & _).
  rewrite Hrun' in Hrun. injection Hrun as <-. simpl in *.
  pose proof (renamed_taken_ne _ _ _ Hreg Hren) as Hne.
  split; [congruence|].
  intros o. rewrite lifespan_disposed, lifespan_target. simpl.
  intros [_ [[? _]|(_ & ? & _)]]; congruence.
Qed.

Lemma renamed_engine_not_disposed_witness :
  __post_init__ orm_ok terminus_events default_config
    (mkRegistries {[ "_sqlalchemy_db_session" ]} {[ "db_engine" ]}
       {[ "session_maker_class" ]})
  = Returned
      (mkConfig (BSHandler (default_handler_maker orm_ok terminus_events
                              "_sqlalchemy_db_session_1"))
         "db_engine" "db_session" "db_engine_1" "session_maker_class_1"
         "_sqlalchemy_db_session_1" true,
       mkRegistries ({[ "_sqlalchemy_db_session_1" ]} ∪ {[ "_sqlalchemy_db_session" ]})
         ({[ "db_engine_1" ]} ∪ {[ "db_engine" ]})
         ({[ "session_maker_class_1" ]} ∪ {[ "session_maker_class" ]}))
  ∧ ∀ o, ADispose o ∉ app_performed
                        (AsyncConfig.lifespan (λ _, true) (λ _, None) None
                           (mkConfig (BSHandler (default_handler_maker orm_ok
                                                   terminus_events
                                                   "_sqlalchemy_db_session_1"))
                              "db_engine" "db_session" "db_engine_1"
                              "session_maker_class_1" "_sqlalchemy_db_session_1" true)
                           false 1 2 (λ st, (None, st))) (mkApp ∅ []).
Proof.
  assert (Hrun : __post_init__ orm_ok terminus_events default_config
                   (mkRegistries {[ "_sqlalchemy_db_session" ]} {[ "db_engine" ]}
                      {[ "session_maker_class" ]})
                 = Returned
                     (mkConfig (BSHandler (default_handler_maker orm_ok terminus_events
                                             "_sqlalchemy_db_session_1"))
                        "db_engine" "db_session" "db_engine_1" "session_maker_class_1"
                        "_sqlalchemy_db_session_1" true,
                      mkRegistries
                        ({[ "_sqlalchemy_db_session_1" ]} ∪ {[ "_sqlalchemy_db_session" ]})
                        ({[ "db_engine_1" ]} ∪ {[ "db_engine" ]})
                        ({[ "session_maker_class_1" ]} ∪ {[ "session_maker_class" ]})))
    by (vm_compute; reflexivity).
  split; [exact Hrun|].
  refine (proj2 (renamed_engine_not_disposed orm_ok terminus_events (λ _, true)
                   (λ _, None) None default_config _ _ false 1 2 (λ st, (None, st))
                   (mkApp ∅ []) Hrun _ eq_refl _)).
  - reflexivity.
  - simpl. discriminate.
Defined.

(** ** Handlers: what they leave alone, and the life of a session *)

Lemma cleanup_scope_other orm T key message (sc : gmap string Session) key' :
  key' ≠ key → cleanup_scope orm T key message sc !! key' = sc !! key'.
Proof.
  intros Hne. destruct (cleanup_scope_cases orm T key message sc) as [->|[-> _]]; [done|].
  by apply lookup_delete_ne.
Qed.

Lemma after_handler_nothing orm T key message w :
  scope w !! key = None → after_handler orm T key message [] w = w.
Proof.
  intros Hs. unfold after_handler, cleanup_scope. rewrite Hs, app_nil_r. apply world_eta.
Qed.

Lemma default_handler_idle orm T key message w :
  scope w !! key = None → default_handler_maker orm T key message w = (inr tt, w).
Proof.
  intros Hs. rewrite default_handler_run, Hs. simpl. by rewrite after_handler_nothing.
Qed.

Lemma autocommit_handler_idle orm T cor ecs ers key message w :
  scope w !! key = None → autocommit_handler orm T cor ecs ers key message w = (inr tt, w).
Proof.
  intros Hs. rewrite autocommit_handler_run, Hs. simpl. by rewrite after_handler_nothing.
Qed.

(** X8.  A before-send handler works on its own scope key only.  The entry
    of every other key is left as it was; every ORM call the handler issues
    is a commit, rollback or close of the session stored under its own key;
    it creates no session and does not touch the context flag; and with no
    session under its key it does nothing at all and returns. *)
Theorem handlers_touch_own_key_only (orm : Orm) (T : gset string)
    (cor : bool) (ecs ers : gset Z) (key : string) (message : Message) (w : World) :
  let frame (handler : Message → M unit) :=
    (∀ key', key' ≠ key → scope (handler message w).2 !! key' = scope w !! key')
    ∧ (∀ e, e ∈ performed (handler message) w →
         ∃ s, scope w !! key = Some s ∧ (e = ECommit s ∨ e = ERollback s ∨ e = EClose s))
    ∧ next_session (handler message w).2 = next_session w
    ∧ async_context (handler message w).2 = async_context w
    ∧ (scope w !! key = None → handler message w = (inr tt, w)) in
  frame (default_handler_maker orm T key)
  ∧ frame (autocommit_handler orm T cor ecs ers key).
Proof.
  intros frame. unfold frame. split.
  - rewrite performed_default, default_handler_run. simpl. split_and!; try done.
    + intros key' Hne. by apply cleanup_scope_other.
    + intros e (s & -> & ? & _)%elem_of_cleanup_events. eauto.
    + intros Hs. rewrite <- (default_handler_idle orm T key message w Hs).
      by rewrite default_handler_run.
  - rewrite performed_autocommit, autocommit_handler_run. simpl. split_and!; try done.
    + intros key' Hne. by apply cleanup_scope_other.
    + intros e [Hd|Hc]%elem_of_app.
      * apply elem_of_decision_events in Hd as (s & ? & _ & ->).
        exists s. destruct (should_commit _ _ _ _); eauto.
      * apply elem_of_cleanup_events in Hc as (s & -> & ? & _). eauto.
    + intros Hs. rewrite <- (autocommit_handler_idle orm T cor ecs ers key message w Hs).
      by rewrite autocommit_handler_run.
Qed.

Lemma seq_run {A B} (m : M A) (k : A → M B) (w : World) :
  (m ≫= k) w = match (m w).1 with
               | inl e => (inl e, (m w).2)
               | inr a => k a (m w).2
               end.
Proof. unfold mbind, M_bind, bind. by destruct (m w) as [[e|a] w']. Qed.

(** X9.  The life of a session.  On a scope without a session,
    [provide_session] followed by the default handler on a session-terminus
    message (whose [close] returns) makes one session and closes it, and
    leaves the scope exactly as it was before the request; the next
    [provide_session] then makes another session, a new object. *)
Theorem session_lifecycle (orm : Orm) (T : gset string)
    (self : SQLAlchemyAsyncConfig) (state : gmap string nat) (w : World)
    (maker : nat) (message : Message) :
  scope w !! session_scope_key self = None →
  state !! session_maker_app_state_key self = Some maker →
  msg_type message ∈ T →
  close_result orm (next_session w) = None →
  let request :=
    provide_session self state ;;
    default_handler_maker orm T (session_scope_key self) message in
  (request w).1 = inr tt
  ∧ performed request w = [EMake maker (next_session w); EClose (next_session w)]
  ∧ scope (request w).2 = scope w
  ∧ (∃ session, (provide_session self state (request w).2).1 = inr session
                ∧ session ≠ next_session w).
Proof.
  intros Hs Hm HT Hc request.
  assert (Hreq : request w
                 = (inr tt,
                    {| scope := scope w;
                       trace := trace w ++ [EMake maker (next_session w);
                                            EClose (next_session w)];
                       next_session := S (next_session w);
                       async_context := true |})).
  { unfold request. rewrite seq_run.
    rewrite (provide_session_created self state w maker Hs Hm). cbn [fst snd].
    rewrite default_handler_run. cbn [scope]. rewrite lookup_insert_eq.
    unfold cleanup_result, after_handler, cleanup_events, cleanup_scope.
    cbn [scope trace next_session async_context].
    apply is_terminus_spec in HT. rewrite lookup_insert_eq, HT, Hc.
    rewrite delete_insert_id by done. by rewrite <- app_assoc. }
  rewrite Hreq. cbn [fst snd scope]. split_and!; try done.
  - apply performed_app. by rewrite Hreq.
  - exists (S (next_session w)). split; [|lia].
    set (w2 := {| scope := scope w; trace := _; next_session := _; async_context := _ |}).
    by rewrite (provide_session_created self state w2 maker Hs Hm).
Qed.

Lemma session_lifecycle_witness :
  scope world0 !! session_scope_key default_config = None
  ∧ ({[ "session_maker_class" := 3 ]} : gmap string nat)
      !! session_maker_app_state_key default_config = Some 3
  ∧ msg_type (mkMessage "http.disconnect" 0) ∈ terminus_events
  ∧ close_result orm_ok (next_session world0) = None
  ∧ scope ((provide_session default_config {[ "session_maker_class" := 3 ]} ;;
            default_handler_maker orm_ok terminus_events
              (session_scope_key default_config) (mkMessage "http.disconnect" 0))
             world0).2 = scope world0.
Proof.
  assert (Hs : scope world0 !! session_scope_key default_config = None) by reflexivity.
  assert (Hm : ({[ "session_maker_class" := 3 ]} : gmap string nat)
                 !! session_maker_app_state_key default_config = Some 3) by reflexivity.
  assert (HT : msg_type (mkMessage "http.disconnect" 0) ∈ terminus_events)
    by reflexivity.
  assert (Hc : close_result orm_ok (next_session world0) = None) by reflexivity.
  split_and!; [exact Hs | exact Hm | exact HT | exact Hc |].
  exact (proj1 (proj2 (proj2 (session_lifecycle orm_ok terminus_events default_config
                                {[ "session_maker_class" := 3 ]} world0 3
                                (mkMessage "http.disconnect" 0) Hs Hm HT Hc)))).
Defined.

(** X10.  In the autocommit handler the commit or rollback always comes
    before the close.  When the close raises, its exception is the one that
    leaves the handler, also if the commit or rollback had raised; when the
    close returns, or there is none, the handler raises exactly what the
    commit or rollback raised and returns if that returned. *)
Theorem autocommit_close_comes_last (orm : Orm) (T : gset string)
    (cor : bool) (ecs ers : gset Z) (key : string) (message : Message)
    (w : World) (s : Session) :
  scope w !! key = Some s →
  msg_type message = HTTP_RESPONSE_START →
  let run := autocommit_handler orm T cor ecs ers key message w in
  (∃ tx, (tx = ECommit s ∨ tx = ERollback s)
         ∧ performed (autocommit_handler orm T cor ecs ers key message) w
           = tx :: (if bool_decide (msg_type message ∈ T) then [EClose s] else [])
         ∧ (msg_type message ∉ T ∨ close_result orm s = None →
            run.1 = match (match tx with
                           | ECommit _ => commit_result orm s
                           | _ => rollback_result orm s
                           end) with
                    | Some e => inl e
                    | None => inr tt
                    end))
  ∧ (∀ e, msg_type message ∈ T → close_result orm s = Some e → run.1 = inl e).
Proof.
  intros Hs Hty run. unfold run.
  rewrite performed_autocommit, autocommit_handler_run. cbn [fst].
  unfold decision_events, decision_result, cleanup_events, cleanup_result, is_terminus.
  rewrite Hs, Hty, String.eqb_refl. split.
  - destruct (should_commit cor ecs ers (msg_status message)).
    + exists (ECommit s). split_and!; [eauto | done |].
      intros [Hn|Hc]; case_bool_decide; try done; by rewrite ?Hc.
    + exists (ERollback s). split_and!; [eauto | done |].
      intros [Hn|Hc]; case_bool_decide; try done; by rewrite ?Hc.
  - intros e HT Hc. rewrite bool_decide_eq_true_2 by done. by rewrite Hc.
Qed.

Lemma autocommit_close_comes_last_witness :
  scope world1 !! "db" = Some 7
  ∧ msg_type (mkMessage "http.response.start" 500) = HTTP_RESPONSE_START
  ∧ ∃ tx, (tx = ECommit 7 ∨ tx = ERollback 7)
          ∧ performed (autocommit_handler orm_close_fails terminus_events false ∅ ∅ "db"
                         (mkMessage "http.response.start" 500)) world1
            = tx :: (if bool_decide (msg_type (mkMessage "http.response.start" 500)
                                     ∈ terminus_events)
                     then [EClose 7] else []).
Proof.
  assert (Hs : scope world1 !! "db" = Some 7) by reflexivity.
  split_and!; [exact Hs | reflexivity |].
  destruct (proj1 (autocommit_close_comes_last orm_close_fails terminus_events false ∅ ∅
                     "db" (mkMessage "http.response.start" 500) world1 7 Hs eq_refl))
    as (tx & Htx & Hperf & _).
  exists tx. split; [exact Htx | exact Hperf].
Defined.





(** ** More on [__post_init__] *)

(** X12.  What lines 171 to 189 of [__post_init__] leave in the instance,
    before the hook of the parent class is called (that hook is not among
    the sources and is not modelled; nothing is said of what it does or
    raises).  The before-send handler is installed for the key the instance
    ends up with, not the requested one: [None] becomes the default handler
    on the final [session_scope_key], ["autocommit"] and
    ["autocommit_include_redirects"] become autocommit handlers on that key
    (without and with commits on redirects, no extra statuses); a handler
    given by the caller is kept, and so is any other string.  The
    dependency keys and the exception-handler flag are not changed. *)
Theorem post_init_installs_handler (orm : Orm) (T : gset string)
    (self : SQLAlchemyAsyncConfig) (cls : Registries)
    (made : SQLAlchemyAsyncConfig * Registries) :
  __post_init__ orm T self cls = Returned made →
  before_send_handler made.1
  = match before_send_handler self with
    | BSNone => BSHandler (default_handler_maker orm T (session_scope_key made.1))
    | BSStr name =>
        if decide (name = "autocommit")
        then BSHandler (autocommit_handler orm T false ∅ ∅ (session_scope_key made.1))
        else if decide (name = "autocommit_include_redirects")
             then BSHandler (autocommit_handler orm T true ∅ ∅ (session_scope_key made.1))
             else BSStr name
    | BSHandler handler => BSHandler handler
    end
  ∧ engine_dependency_key made.1 = engine_dependency_key self
  ∧ session_dependency_key made.1 = session_dependency_key self
  ∧ set_default_exception_handler made.1 = set_default_exception_handler self.
Proof.
  destruct (_ensure_unique_returns (_SESSION_SCOPE_KEY_REGISTRY cls)
              (session_scope_key self)) as (k1 & Hk1 & _).
  destruct (_ensure_unique_returns (_ENGINE_APP_STATE_KEY_REGISTRY cls)
              (engine_app_state_key self)) as (k2 & Hk2 & _).
  destruct (_ensure_unique_returns (_SESSIONMAKER_APP_STATE_KEY_REGISTRY cls)
              (session_maker_app_state_key self)) as (k3 & Hk3 & _).
  unfold __post_init__. rewrite Hk1, Hk2, Hk3. cbn [and_then].
  destruct (before_send_handler self) as [|name|h]; cbn [is_literal].
  - intros [= <-]. simpl. done.
  - destruct (String.eqb_spec name "autocommit") as [->|Hne1].
    + rewrite maker_defaults. cbn [lift_maker and_then is_literal].
      intros [= <-]. simpl. done.
    + cbn [and_then is_literal].
      destruct (String.eqb_spec name "autocommit_include_redirects") as [->|Hne2].
      * rewrite maker_defaults. cbn [lift_maker and_then].
        intros [= <-]. simpl. done.
      * cbn [and_then]. intros [= <-]. simpl.
        rewrite !decide_False by done. done.
  - intros [= <-]. simpl. done.
Qed.

Lemma post_init_installs_handler_witness :
  __post_init__ orm_ok terminus_events
    (mkConfig (BSStr "autocommit") "db_engine" "db_session" "db_engine"
       "session_maker_class" "db" false)
    (mkRegistries {[ "db" ]} ∅ ∅)
  = Returned
      (mkConfig (BSHandler (autocommit_handler orm_ok terminus_events false ∅ ∅ "db_1"))
         "db_engine" "db_session" "db_engine" "session_maker_class" "db_1" false,
       mkRegistries ({[ "db_1" ]} ∪ {[ "db" ]}) ({[ "db_engine" ]} ∪ ∅)
         ({[ "session_maker_class" ]} ∪ ∅))
  ∧ before_send_handler
      (mkConfig (BSHandler (autocommit_handler orm_ok terminus_events false ∅ ∅ "db_1"))
         "db_engine" "db_session" "db_engine" "session_maker_class" "db_1" false)
    = BSHandler (autocommit_handler orm_ok terminus_events false ∅ ∅ "db_1").
Proof.
  assert (Hrun : __post_init__ orm_ok terminus_events
                   (mkConfig (BSStr "autocommit") "db_engine" "db_session" "db_engine"
                      "session_maker_class" "db" false)
                   (mkRegistries {[ "db" ]} ∅ ∅)
                 = Returned
                     (mkConfig (BSHandler (autocommit_handler orm_ok terminus_events
                                             false ∅ ∅ "db_1"))
                        "db_engine" "db_session" "db_engine" "session_maker_class"
                        "db_1" false,
                      mkRegistries ({[ "db_1" ]} ∪ {[ "db" ]}) ({[ "db_engine" ]} ∪ ∅)
                        ({[ "session_maker_class" ]} ∪ ∅)))
    by (vm_compute; reflexivity).
  split; [exact Hrun|].
  exact (proj1 (post_init_installs_handler orm_ok terminus_events _ _ _ Hrun)).
Defined.

(** X13.  [commit_on_redirect] matters for redirects only.  The handlers made
    with and without it do the same on every message, except a
    response-start message whose status is in [[300, 400)] and in neither
    extra set while a session is stored: there the one made without it rolls
    the session back and the one made with it commits. *)
Theorem commit_on_redirect_differs_on_3xx (orm : Orm) (T : gset string)
    (ecs ers : gset Z) (key : string) (message : Message) (w : World) :
  let plain := autocommit_handler orm T false ecs ers key in
  let redirects := autocommit_handler orm T true ecs ers key in
  let redirect_response :=
    msg_type message = HTTP_RESPONSE_START
    ∧ (300 ≤ msg_status message < 400)%Z
    ∧ (msg_status message ∉ ecs) ∧ (msg_status message ∉ ers) in
  (∀ s, scope w !! key = Some s → redirect_response →
     ERollback s ∈ performed (plain message) w
     ∧ ECommit s ∈ performed (redirects message) w)
  ∧ (¬ redirect_response → plain message w = redirects message w)
  ∧ (scope w !! key = None → plain message w = redirects message w).
Proof.
  intros plain redirects redirect_response. unfold plain, redirects.
  assert (Hsame : ¬ redirect_response → msg_type message = HTTP_RESPONSE_START →
            should_commit false ecs ers (msg_status message)
            = should_commit true ecs ers (msg_status message)).
  { intros Hno Hty. unfold should_commit, commit_range.
    destruct (decide (msg_status message ∈ ecs)) as [Hc|Hc].
    - rewrite (bool_decide_eq_true_2 _ Hc), !orb_true_r. done.
    - rewrite (bool_decide_eq_false_2 _ Hc), !orb_false_r.
      destruct (decide (msg_status message ∈ ers)) as [Hr|Hr].
      + rewrite (bool_decide_eq_true_2 _ Hr). simpl. by rewrite !andb_false_r.
      + rewrite (bool_decide_eq_false_2 _ Hr). simpl. rewrite !andb_true_r.
        destruct (200 <=? msg_status message)%Z eqn:H200; [|done]. simpl.
        destruct (msg_status message <? 300)%Z eqn:H300;
          destruct (msg_status message <? 400)%Z eqn:H400; try done.
        * apply Z.ltb_lt in H300. apply Z.ltb_ge in H400. lia.
        * destruct Hno. unfold redirect_response.
          apply Z.ltb_ge in H300. apply Z.ltb_lt in H400. split_and!; try done; lia. }
  split_and!.
  - intros s Hs (Hty & Hrange & Hc & Hr).
    rewrite !performed_autocommit, Hs. unfold decision_events.
    rewrite Hty, String.eqb_refl.
    assert (should_commit false ecs ers (msg_status message) = false) as ->.
    { apply not_true_is_false. rewrite should_commit_spec. intros [[?|?] _]; [lia|done]. }
    assert (should_commit true ecs ers (msg_status message) = true) as ->.
    { apply should_commit_spec. split; [left; lia|done]. }
    split; apply elem_of_app; left; set_solver.
  - intros Hno. rewrite !autocommit_handler_run.
    unfold decision_result, decision_events.
    destruct (scope w !! key) as [s|]; [|done].
    destruct (String.eqb_spec (msg_type message) HTTP_RESPONSE_START) as [Hty|Hty]; [|done].
    by rewrite (Hsame Hno Hty).
  - intros Hs. by rewrite !autocommit_handler_idle.
Qed.

Section Numbering.

Variable orm : Orm.
Variable T : gset string.
Variable key_of : SQLAlchemyAsyncConfig → string.
Variable registry_of : Registries → gset string.

Hypothesis post_init_renames :
  ∀ self cls made,
    __post_init__ orm T self cls = Returned made →
    renamed (registry_of cls) (key_of self) (key_of made.1)
    ∧ registry_of made.2 = {[key_of made.1]} ∪ registry_of cls.

Lemma renamed_at key registry final i :
  (∀ j, candidate key j ∈ registry ↔ j < i) →
  renamed registry key final → final = candidate key i.
Proof.
  intros Hreg [[Hfree ->]|(Hin & n & Hn & -> & Hfree & Hbelow)].
  - destruct i as [|i]; [done|]. destruct Hfree. apply (Hreg 0). lia.
  - assert (n = i) as ->.
    { destruct (lt_eq_lt_dec n i) as [[Hlt|Heq]|Hgt]; [|done|].
      - destruct Hfree. replace (suffixed key n) with (candidate key n)
          by (destruct n; [lia|done]). apply Hreg. lia.
      - assert (i ≠ 0) by (intros ->; apply (Hreg 0) in Hin; lia).
        assert (suffixed key i ∈ registry) as Hi by (apply Hbelow; lia).
        replace (suffixed key i) with (candidate key i) in Hi by (destruct i; done).
        apply Hreg in Hi. lia. }
    destruct i; [lia|done].
Qed.

Lemma create_instances_numbered key requested :
  ∀ i cls made,
    Forall (λ self, key_of self = key) requested →
    (∀ j, candidate key j ∈ registry_of cls ↔ j < i) →
    create_instances orm T requested cls = Returned made →
    key_of <$> made.1 = candidate key <$> seq i (length requested).
Proof.
  induction requested as [|self rest IH]; intros i cls made Hall Hreg Hrun.
  - by injection Hrun as <-.
  - apply Forall_cons in Hall as [Hkey Hall].
    cbn [create_instances] in Hrun.
    destruct (__post_init__ orm T self cls) as [first| |] eqn:Hfirst; try done.
    cbn [and_then] in Hrun.
    destruct (create_instances orm T rest first.2) as [others| |] eqn:Hrest; try done.
    cbn [and_then] in Hrun. injection Hrun as <-.
    destruct (post_init_renames self cls first Hfirst) as [Hren Hnew].
    rewrite Hkey in Hren. apply (renamed_at key _ _ i Hreg) in Hren.
    cbn [fst length seq fmap list_fmap]. f_equal; [done|].
    apply (IH (S i) first.2 others Hall); [|done].
    intros j. rewrite Hnew, Hren, elem_of_union, elem_of_singleton, Hreg. split.
    + intros [Heq%candidate_inj|?]; lia.
    + intros Hj. destruct (decide (j = i)) as [->|]; [by left|right; lia].
Qed.

End Numbering.

(** X14.  Instances that ask for the same [session_scope_key], made one
    after the other while no name of that family is registered, get the key
    itself, then the key with [_1], [_2], ... in the order of their
    creation. *)
Theorem same_key_instances_numbered (orm : Orm) (T : gset string)
    (key : string) (requested : list SQLAlchemyAsyncConfig) (cls : Registries) :
  Forall (λ self, session_scope_key self = key) requested →
  (∀ j, candidate key j ∉ _SESSION_SCOPE_KEY_REGISTRY cls) →
  ∃ made,
    create_instances orm T requested cls = Returned made
    ∧ session_scope_key <$> made.1 = candidate key <$> seq 0 (length requested).
Proof.
  intros Hall Hfree.
  destruct (create_instances_returns orm T requested cls) as (made & Hrun & _).
  exists made. split; [exact Hrun|].
  apply (create_instances_numbered orm T session_scope_key _SESSION_SCOPE_KEY_REGISTRY)
    with (cls := cls); try done.
  - intros self cls' made' Hrun'.
    destruct (post_init_run orm T self cls') as (k1 & k2 & k3 & h & Hrun'' & H1 & _).
    rewrite Hrun'' in Hrun'. injection Hrun' as <-. simpl. done.
  - intros j. split; [intros Hin; by apply Hfree in Hin | lia].
Qed.

Lemma same_key_instances_numbered_witness :
  Forall (λ self, session_scope_key self = "_sqlalchemy_db_session")
    [default_config; default_config]
  ∧ (∀ j, candidate "_sqlalchemy_db_session" j
            ∉ _SESSION_SCOPE_KEY_REGISTRY no_registrations)
  ∧ ∃ made,
      create_instances orm_ok terminus_events [default_config; default_config]
        no_registrations = Returned made
      ∧ session_scope_key <$> made.1
        = candidate "_sqlalchemy_db_session" <$> seq 0 2.
Proof.
  assert (Hall : Forall (λ self, session_scope_key self = "_sqlalchemy_db_session")
                   [default_config; default_config])
    by (repeat constructor).
  assert (Hfree : ∀ j, candidate "_sqlalchemy_db_session" j
                         ∉ _SESSION_SCOPE_KEY_REGISTRY no_registrations)
    by (intros j; apply not_elem_of_empty).
  split_and!; [exact Hall | exact Hfree |].
  exact (same_key_instances_numbered orm_ok terminus_events "_sqlalchemy_db_session"
           [default_config; default_config] no_registrations Hall Hfree).
Defined.

(** ** [on_app_init] *)

Lemma on_app_init_fold configs : ∀ flag app_config,
  fold_left on_app_init_step configs (flag, app_config)
  = (flag || existsb set_default_exception_handler configs,
     {| lifespan := lifespan app_config ++ configs;
        dependencies := register_dependencies configs (dependencies app_config);
        before_send := before_send app_config ++ (before_send_handler <$> configs);
        exception_handlers := exception_handlers app_config |}).
Proof.
  induction configs as [|c configs IH]; intros flag app_config.
  - simpl. rewrite orb_false_r, !app_nil_r. by destruct app_config.
  - cbn [fold_left on_app_init_step]. rewrite IH. cbn.
    rewrite <- !app_assoc. f_equal.
    destruct (set_default_exception_handler c), flag; reflexivity.
Qed.

Lemma on_app_init_returns self app_config app_config' :
  on_app_init self app_config = inr app_config' →
  _validate_config self = inr tt
  ∧ lifespan app_config' = lifespan app_config ++ plugin_configs self
  ∧ dependencies app_config'
    = register_dependencies (plugin_configs self) (dependencies app_config)
  ∧ before_send app_config'
    = before_send app_config ++ (before_send_handler <$> plugin_configs self)
  ∧ exception_handlers app_config'
    = exception_handlers app_config
      ++ (if existsb set_default_exception_handler (plugin_configs self)
             && negb (existsb (λ kh, covers_repository_errors kh.1)
                        (exception_handlers app_config))
          then [(ClassKey RepositoryError, exception_to_http_response)] else []).
Proof.
  unfold on_app_init. destruct (_validate_config self) as [e|[]]; [done|].
  rewrite on_app_init_fold. cbn [orb fst snd exception_handlers].
  destruct (_ && _); intros [= <-]; cbn; rewrite ?app_nil_r; done.
Qed.

(** X15.  When [on_app_init] returns, every config has contributed its
    [lifespan] and its before-send handler, once each and in the order of the
    configs, after the ones the application config already had; none of
    those is removed or moved. *)
Theorem on_app_init_appends_hooks (self : PluginConfig)
    (app_config app_config' : AppConfig) :
  on_app_init self app_config = inr app_config' →
  lifespan app_config' = lifespan app_config ++ plugin_configs self
  ∧ before_send app_config'
    = before_send app_config ++ (before_send_handler <$> plugin_configs self)
  ∧ length (before_send app_config')
    = length (before_send app_config) + length (plugin_configs self).
Proof.
  intros (_ & Hl & _ & Hb & _)%on_app_init_returns.
  split_and!; [done | done |]. by rewrite Hb, length_app, length_fmap.
Qed.

Lemma on_app_init_appends_hooks_witness :
  on_app_init (Single default_config) (mkAppConfig [] ∅ [BSStr "mine"] [])
  = inr (mkAppConfig [default_config]
           (<[ "db_session" := ProvideSession default_config ]>
              (<[ "db_engine" := ProvideEngine default_config ]> ∅))
           [BSStr "mine"; BSNone]
           [(ClassKey RepositoryError, exception_to_http_response)])
  ∧ before_send (mkAppConfig [default_config]
                   (<[ "db_session" := ProvideSession default_config ]>
                      (<[ "db_engine" := ProvideEngine default_config ]> ∅))
                   [BSStr "mine"; BSNone]
                   [(ClassKey RepositoryError, exception_to_http_response)])
    = before_send (mkAppConfig [] ∅ [BSStr "mine"] [])
      ++ (before_send_handler <$> plugin_configs (Single default_config)).
Proof.
  assert (Hrun : on_app_init (Single default_config) (mkAppConfig [] ∅ [BSStr "mine"] [])
                 = inr (mkAppConfig [default_config]
                          (<[ "db_session" := ProvideSession default_config ]>
                             (<[ "db_engine" := ProvideEngine default_config ]> ∅))
                          [BSStr "mine"; BSNone]
                          [(ClassKey RepositoryError, exception_to_http_response)]))
    by reflexivity.
  split; [exact Hrun|].
  exact (proj1 (proj2 (on_app_init_appends_hooks _ _ _ Hrun))).
Defined.

Lemma register_dependencies_other configs : ∀ deps key,
  key ∉ dependency_keys configs →
  register_dependencies configs deps !! key = deps !! key.
Proof.
  induction configs as [|c configs IH]; intros deps key Hkey; [done|].
  unfold register_dependencies in *. cbn [fold_left]. simpl in Hkey.
  rewrite IH by set_solver.
  rewrite !lookup_insert_ne by set_solver. done.
Qed.

Lemma register_dependencies_found configs : ∀ deps c,
  NoDup (engine_dependency_key <$> configs) →
  NoDup (session_dependency_key <$> configs) →
  (∀ c1 c2, c1 ∈ configs → c2 ∈ configs →
     engine_dependency_key c1 ≠ session_dependency_key c2) →
  c ∈ configs →
  register_dependencies configs deps !! engine_dependency_key c = Some (ProvideEngine c)
  ∧ register_dependencies configs deps !! session_dependency_key c
    = Some (ProvideSession c).
Proof.
  induction configs as [|c0 configs IH]; intros deps c Hne Hns Hdisj Hin.
  - by apply elem_of_nil in Hin.
  - rewrite fmap_cons in Hne, Hns.
    apply NoDup_cons in Hne as [Hne0 Hne]. apply NoDup_cons in Hns as [Hns0 Hns].
    assert (Hrest : ∀ k, k ∈ dependency_keys configs →
              ∃ c', c' ∈ configs
                    ∧ (k = engine_dependency_key c' ∨ k = session_dependency_key c')).
    { intros k Hk. unfold dependency_keys in Hk.
      apply list_elem_of_bind in Hk as (c' & Hk & Hc'). exists c'. set_solver. }
    apply elem_of_cons in Hin as [->|Hin].
    + unfold register_dependencies. cbn [fold_left].
      fold (register_dependencies configs
              (<[session_dependency_key c0 := ProvideSession c0]>
                 (<[engine_dependency_key c0 := ProvideEngine c0]> deps))).
      assert (Hd : engine_dependency_key c0 ≠ session_dependency_key c0)
        by (apply Hdisj; apply elem_of_cons; by left).
      split.
      * rewrite register_dependencies_other.
        { rewrite lookup_insert_ne by done. apply lookup_insert_eq. }
        intros (c' & Hc' & [Heq|Heq])%Hrest.
        -- apply Hne0. rewrite Heq. by apply list_elem_of_fmap_2.
        -- apply (Hdisj c0 c'); [apply elem_of_cons; by left
                                | apply elem_of_cons; by right | done].
      * rewrite register_dependencies_other; [apply lookup_insert_eq|].
        intros (c' & Hc' & [Heq|Heq])%Hrest.
        -- apply (Hdisj c' c0); [apply elem_of_cons; by right
                                | apply elem_of_cons; by left | done].
        -- apply Hns0. rewrite Heq. by apply list_elem_of_fmap_2.
    + unfold register_dependencies. cbn [fold_left]. apply IH; try done.
      intros c1 c2 H1 H2. apply Hdisj; apply elem_of_cons; by right.
Qed.

Lemma validated_keys_distinct self :
  _validate_config self = inr tt →
  NoDup (engine_dependency_key <$> plugin_configs self)
  ∧ NoDup (session_dependency_key <$> plugin_configs self).
Proof.
  intros Hok.
  destruct (validate_config_raises_iff self) as [Hraise _].
  destruct (decide (1 < length (plugin_configs self))) as [Hlen|Hlen].
  - destruct (decide (NoDup (engine_dependency_key <$> plugin_configs self))) as [H1|H1];
      destruct (decide (NoDup (session_dependency_key <$> plugin_configs self))) as [H2|H2];
      try done; rewrite Hraise in Hok by (split; [done|tauto]); done.
  - destruct (plugin_configs self) as [|c [|c' l]]; simpl in *; try lia.
    + split; constructor.
    + split; (constructor; [set_solver|constructor]).
Qed.

(** X16.  When [on_app_init] returns and no engine dependency key of a
    config is the session dependency key of a config, the dependencies lose
    nothing: every config has its engine provider under its
    [engine_dependency_key] and its session provider under its
    [session_dependency_key], and the keys of no config keep the provider
    they had. *)
Theorem on_app_init_registers_providers (self : PluginConfig)
    (app_config app_config' : AppConfig) :
  on_app_init self app_config = inr app_config' →
  (∀ c1 c2, c1 ∈ plugin_configs self → c2 ∈ plugin_configs self →
     engine_dependency_key c1 ≠ session_dependency_key c2) →
  (∀ config, config ∈ plugin_configs self →
     dependencies app_config' !! engine_dependency_key config
       = Some (ProvideEngine config)
     ∧ dependencies app_config' !! session_dependency_key config
       = Some (ProvideSession config))
  ∧ (∀ key, key ∉ dependency_keys (plugin_configs self) →
       dependencies app_config' !! key = dependencies app_config !! key).
Proof.
  intros (Hok & _ & Hd & _)%on_app_init_returns Hdisj. rewrite Hd.
  destruct (validated_keys_distinct self Hok) as [Hne Hns].
  split.
  - intros config Hin. by apply register_dependencies_found.
  - intros key. apply register_dependencies_other.
Qed.

Lemma on_app_init_registers_providers_witness :
  on_app_init (Single default_config) (mkAppConfig [] ∅ [] [])
  = inr (mkAppConfig [default_config]
           (<[ "db_session" := ProvideSession default_config ]>
              (<[ "db_engine" := ProvideEngine default_config ]> ∅))
           [BSNone]
           [(ClassKey RepositoryError, exception_to_http_response)])
  ∧ (∀ c1 c2, c1 ∈ plugin_configs (Single default_config) →
       c2 ∈ plugin_configs (Single default_config) →
       engine_dependency_key c1 ≠ session_dependency_key c2)
  ∧ dependencies (mkAppConfig [default_config]
                    (<[ "db_session" := ProvideSession default_config ]>
                       (<[ "db_engine" := ProvideEngine default_config ]> ∅))
                    [BSNone]
                    [(ClassKey RepositoryError, exception_to_http_response)])
      !! engine_dependency_key default_config
    = Some (ProvideEngine default_config).
Proof.
  assert (Hrun : on_app_init (Single default_config) (mkAppConfig [] ∅ [] [])
                 = inr (mkAppConfig [default_config]
                          (<[ "db_session" := ProvideSession default_config ]>
                             (<[ "db_engine" := ProvideEngine default_config ]> ∅))
                          [BSNone]
                          [(ClassKey RepositoryError, exception_to_http_response)]))
    by reflexivity.
  assert (Hdisj : ∀ c1 c2, c1 ∈ plugin_configs (Single default_config) →
                    c2 ∈ plugin_configs (Single default_config) →
                    engine_dependency_key c1 ≠ session_dependency_key c2).
  { intros c1 c2 H1 H2. apply list_elem_of_singleton in H1. apply list_elem_of_singleton in H2.
    rewrite H1, H2. discriminate. }
  split_and!; [exact Hrun | exact Hdisj |].
  apply (proj1 (on_app_init_registers_providers _ _ _ Hrun Hdisj)).
  apply list_elem_of_singleton. reflexivity.
Defined.

(** X17.  [on_app_init] never removes or replaces an exception handler.  It
    adds the handler for [RepositoryError] exactly when some config sets
    [set_default_exception_handler] and no key already registered is a
    status code or a subclass of [RepositoryError]; run again on its own
    result, it adds no second one. *)
Theorem on_app_init_exception_handler (self : PluginConfig)
    (app_config app_config' : AppConfig) :
  on_app_init self app_config = inr app_config' →
  let wanted := ∃ config, config ∈ plugin_configs self
                          ∧ set_default_exception_handler config = true in
  let covered := ∃ kh, kh ∈ exception_handlers app_config
                       ∧ covers_repository_errors kh.1 = true in
  (wanted ∧ ¬ covered →
   exception_handlers app_config'
   = exception_handlers app_config
     ++ [(ClassKey RepositoryError, exception_to_http_response)])
  ∧ (¬ (wanted ∧ ¬ covered) →
     exception_handlers app_config' = exception_handlers app_config)
  ∧ (∃ app_config'', on_app_init self app_config' = inr app_config''
                     ∧ exception_handlers app_config''
                       = exception_handlers app_config').
Proof.
  intros Hrun wanted covered.
  pose proof (on_app_init_returns _ _ _ Hrun) as (Hok & _ & _ & _ & He).
  assert (Hw : existsb set_default_exception_handler (plugin_configs self) = true ↔ wanted).
  { rewrite existsb_exists. unfold wanted. setoid_rewrite list_elem_of_In. done. }
  assert (Hc : ∀ l, existsb (λ kh : HandlerKey * ExceptionHandler,
                               covers_repository_errors kh.1) l = true
                    ↔ ∃ kh, kh ∈ l ∧ covers_repository_errors kh.1 = true).
  { intros l. rewrite existsb_exists. setoid_rewrite list_elem_of_In. done. }
  split_and!.
  - intros [Hwant Hncov]. rewrite He.
    apply Hw in Hwant. rewrite Hwant.
    assert (existsb (λ kh, covers_repository_errors kh.1) (exception_handlers app_config)
            = false) as ->; [|done].
    apply not_true_is_false. rewrite Hc. done.
  - intros Hno. rewrite He.
    destruct (existsb set_default_exception_handler _) eqn:Hf; [|by rewrite app_nil_r].
    destruct (existsb _ (exception_handlers app_config)) eqn:Hcov;
      [by rewrite app_nil_r|].
    destruct Hno. split; [by apply Hw|]. intros Hcv. apply Hc in Hcv. congruence.
  - unfold on_app_init. rewrite Hok, on_app_init_fold. cbn [orb fst snd exception_handlers].
    destruct (existsb set_default_exception_handler _) eqn:Hf; cbn [andb].
    + assert (existsb (λ kh, covers_repository_errors kh.1) (exception_handlers app_config')
              = true) as ->.
      { rewrite He. cbn [andb]. rewrite existsb_app.
        destruct (existsb _ (exception_handlers app_config)); [done|]. simpl. done. }
      eexists. split; [reflexivity|done].
    + eexists. split; [reflexivity|done].
Qed.

Lemma on_app_init_exception_handler_witness :
  on_app_init (Single default_config)
    (mkAppConfig [] ∅ [] [(StatusKey 500, UserHandler 1)])
  = inr (mkAppConfig [default_config]
           (<[ "db_session" := ProvideSession default_config ]>
              (<[ "db_engine" := ProvideEngine default_config ]> ∅))
           [BSNone] [(StatusKey 500, UserHandler 1)])
  ∧ ∃ app_config'',
      on_app_init (Single default_config)
        (mkAppConfig [default_config]
           (<[ "db_session" := ProvideSession default_config ]>
              (<[ "db_engine" := ProvideEngine default_config ]> ∅))
           [BSNone] [(StatusKey 500, UserHandler 1)])
      = inr app_config''
      ∧ exception_handlers app_config'' = [(StatusKey 500, UserHandler 1)].
Proof.
  assert (Hrun : on_app_init (Single default_config)
                   (mkAppConfig [] ∅ [] [(StatusKey 500, UserHandler 1)])
                 = inr (mkAppConfig [default_config]
                          (<[ "db_session" := ProvideSession default_config ]>
                             (<[ "db_engine" := ProvideEngine default_config ]> ∅))
                          [BSNone] [(StatusKey 500, UserHandler 1)]))
    by reflexivity.
  split; [exact Hrun|].
  exact (proj2 (proj2 (on_app_init_exception_handler _ _ _ Hrun))).
Defined.

(** ** Test helpers *)

(** X18.  [anext_] raises [StopAsyncIteration] only when the iterator is
    exhausted and the default passed is an instance of [NoValue].  The
    default of the parameter is the class [NoValue] itself, which is not such
    an instance: called without a default on an exhausted iterator, [anext_]
    returns the class [NoValue] and raises nothing.  A value of the iterator
    is returned as it is, and any other exception is passed on. *)
Theorem anext_stops_only_for_instance (iterable : next_result) (default : PyValue) :
  (anext_ iterable default = ARaisesStopAsyncIteration
   ↔ iterable = Exhausted ∧ default = NoValueInstance)
  ∧ (default ≠ NoValueInstance → anext_ Exhausted default = AReturns default)
  ∧ anext_ Exhausted anext_default = AReturns NoValueClass
  ∧ (∀ v, anext_ (Yields v) default = AReturns v)
  ∧ (∀ e, anext_ (Fails e) default = ARaises e).
Proof.
  split_and!; try done.
  - destruct iterable, default; simpl; split; try done; intros [? ?]; done.
  - by destruct default.
Qed.

Lemma purge_step (modules : gmap string nat) name :
  (if bool_decide (is_Some (modules !! name)) then delete name modules else modules)
  = delete name modules.
Proof.
  case_bool_decide as Hin; [done|].
  symmetry. apply delete_id. by apply eq_None_not_Some.
Qed.

Lemma purge_lookup names : ∀ (modules : gmap string nat) name,
  fold_left (λ modules name,
               if bool_decide (is_Some (modules !! name))
               then delete name modules else modules) names modules !! name
  = if decide (name ∈ names) then None else modules !! name.
Proof.
  induction names as [|n names IH]; intros modules name.
  - cbn [fold_left]. rewrite decide_False by apply not_elem_of_nil. done.
  - cbn [fold_left]. rewrite IH, purge_step.
    destruct (decide (name ∈ names)) as [Hin|Hnotin].
    + rewrite decide_True by (apply elem_of_cons; by right). done.
    + destruct (decide (name = n)) as [->|Hne].
      * rewrite decide_True by (apply elem_of_cons; by left). apply lookup_delete_eq.
      * rewrite decide_False by (intros [?|?]%elem_of_cons; done).
        by apply lookup_delete_ne.
Qed.

(** X19.  After [purge_module] none of the named modules is in
    [sys.modules] and every other module is still there; the cache file of
    [path] is gone and no other file is touched; names that were not loaded
    and a cache file that did not exist are accepted; purging again changes
    nothing. *)
Theorem purge_module_purges (cache_from_source : string → string)
    (module_names : list string) (path : string)
    (sys_modules : gmap string nat) (files : gset string) :
  let purged := purge_module cache_from_source module_names path sys_modules files in
  (∀ name, name ∈ module_names → purged.1 !! name = None)
  ∧ (∀ name, name ∉ module_names → purged.1 !! name = sys_modules !! name)
  ∧ (cache_from_source path ∉ purged.2)
  ∧ (∀ file, file ≠ cache_from_source path → file ∈ purged.2 ↔ file ∈ files)
  ∧ purge_module cache_from_source module_names path purged.1 purged.2 = purged.
Proof.
  intros purged. unfold purged, purge_module. cbn [fst snd]. split_and!.
  - intros name Hin. rewrite purge_lookup. by rewrite decide_True.
  - intros name Hnotin. rewrite purge_lookup. by rewrite decide_False.
  - set_solver.
  - intros file Hne. set_solver.
  - f_equal; [|set_solver].
    apply map_eq. intros name. rewrite !purge_lookup. by case_decide.
Qed.
